(** * VSI peer map: filtering and graph synthesis

    Shallow embedding of the data-processing effect of the
    [VsiVisualization] component (src/pages/map/page.tsx, lines 78-124):
    the filter over [allVsis] and the construction of the React Flow
    node and edge arrays, with the per-pass [peerNodeMap].

    Conventions.
    - JavaScript strings are modelled as [string]; [Js.toLowerCase] is
      the ASCII case folding (letters A-Z), which is what [toLowerCase]
      does on ASCII text. What the filter does on free text is stated for
      an arbitrary folding function (section [Folding]), of which
      [Js.toLowerCase] is one instance.
    - A property read that may yield [undefined] at run time (the records
      are parsed JSON, the TypeScript interface is not checked) is an
      [option]: [None] is the missing field.
      JSON [null] is not told apart from an absent property: the effect
      treats both alike wherever it tests the value or calls a method on
      it. Inside a template literal an absent property prints as
      "undefined" ([show_string]); [null] would print as "null", which is
      not modelled: a null [peerAddress] is outside the declared type.
    - Numeric ids are integers ([Z]); a template literal prints them in
      decimal ([pretty]), as JavaScript does below 10^21.
    - A method call on [undefined] throws: computations that may throw
      live in the [result] monad below. *)

From stdpp Require Import gmap strings list fin_maps pretty.
From Stdlib Require Import Ascii ZArith Lia.

Local Open Scope string_scope.
Local Open Scope Z_scope.
Local Open Scope list_scope.

(** ** JavaScript primitives *)

Module Js.

(** Outcome of an evaluation that may throw a [TypeError]. *)
Inductive result (A : Type) : Type :=
| Ok (a : A)
| TypeError.
Arguments Ok {A} a.
Arguments TypeError {A}.

Definition bind {A B : Type} (r : result A) (k : A -> result B) : result B :=
  match r with
  | Ok a => k a
  | TypeError => TypeError
  end.

(** [c.toLowerCase()] on one ASCII character. *)
Definition lower_ascii (c : ascii) : ascii :=
  let n := N_of_ascii c in
  if ((65 <=? n) && (n <=? 90))%N then ascii_of_N (n + 32) else c.

(** [s.toLowerCase()] on ASCII text: the letters A-Z are folded, every
    other character is left as it is. *)
Fixpoint toLowerCase (s : string) : string :=
  match s with
  | EmptyString => EmptyString
  | String c s' => String (lower_ascii c) (toLowerCase s')
  end.

(** [s.includes(t)]: [t] occurs in [s] as a contiguous substring. *)
Fixpoint includes (s t : string) : bool :=
  String.prefix t s
  || match s with
     | EmptyString => false
     | String _ s' => includes s' t
     end.

(** [s.replace(c, '')] with a one-character string pattern: only the
    first occurrence of [c] is removed, wherever it stands. *)
Fixpoint replace_first (c : ascii) (s : string) : string :=
  match s with
  | EmptyString => EmptyString
  | String d s' => if Ascii.eqb d c then s' else String d (replace_first c s')
  end.

(** Truthiness of a string: the empty string is falsy. *)
Definition truthy (s : string) : bool :=
  match s with
  | EmptyString => false
  | String _ _ => true
  end.

(** A string-typed property inside a template literal. *)
Definition show_string (o : option string) : string :=
  match o with
  | Some s => s
  | None => "undefined"
  end.

(** [o.toLowerCase()] without optional chaining: throws on [undefined]. *)
Definition toLowerCase_of (o : option string) : result string :=
  match o with
  | Some s => Ok (toLowerCase s)
  | None => TypeError
  end.

(** [xs.filter(cb)]: the callback runs on every element in index order;
    an exception thrown by it aborts the whole call. *)
Fixpoint filter {A : Type} (cb : A -> result bool) (xs : list A)
  : result (list A) :=
  match xs with
  | [] => Ok []
  | x :: xs' =>
      bind (cb x) (fun keep =>
      bind (filter cb xs') (fun rest =>
      Ok (if keep then x :: rest else rest)))
  end.

End Js.

Import Js.

#[global] Instance result_bind : MBind result := fun A B k r => Js.bind r k.

(** ** Data model (src/interfaces/network.ts, fields the effect reads) *)

Record VsiPeerInfo : Type := mkPeer {
  peer_id : Z;
  peerAddress : option string;
  pwId : option Z;
  pwState : option string;
  peerDeviceName : option string
}.

Record Vsi : Type := mkVsi {
  vsi_id : Z;
  vsi_name : option string;
  vsi_state : option string;
  vsi_peers : option (list VsiPeerInfo)
}.

(** React Flow nodes: [{ id, type, position: { x, y }, data }]. *)
Inductive NodeType : Type := vsiNode | peerNode.

Inductive NodeData : Type :=
| VsiData (vsi : Vsi)
| PeerData (ip : option string) (name : option string).

Record Node : Type := mkNode {
  node_id : string;
  node_type : NodeType;
  node_x : Z;
  node_y : Z;
  node_data : NodeData
}.

(** React Flow edges:
    [{ id, source, target, style: { stroke, strokeWidth }, animated,
       markerEnd: { type: ArrowClosed, color }, data: { pwState, pwId } }]. *)
Record Edge : Type := mkEdge {
  edge_id : string;
  source : string;
  target : string;
  stroke : string;
  strokeWidth : Z;
  animated : bool;
  markerColor : string;
  data_pwState : option string;
  data_pwId : option Z
}.

(** ** The filter (page.tsx, lines 87-91) *)

(** [filterName ? vsi.name.toLowerCase().includes(filterName.toLowerCase()) : true] *)
Definition nameMatch (filterName : string) (vsi : Vsi) : result bool :=
  if truthy filterName then
    n ← toLowerCase_of (vsi_name vsi);
    Ok (includes n (toLowerCase filterName))
  else Ok true.

(** [filterState ? vsi.state.toLowerCase().replace('*','') === filterState.toLowerCase() : true] *)
Definition stateMatch (filterState : string) (vsi : Vsi) : result bool :=
  if truthy filterState then
    s ← toLowerCase_of (vsi_state vsi);
    Ok (String.eqb (replace_first "*"%char s) (toLowerCase filterState))
  else Ok true.

(** The callback: both constants are evaluated, then [nameMatch && stateMatch]. *)
Definition filterCallback (filterName filterState : string) (vsi : Vsi)
  : result bool :=
  nm ← nameMatch filterName vsi;
  sm ← stateMatch filterState vsi;
  Ok (nm && sm).

Definition filteredVsis (allVsis : list Vsi) (filterName filterState : string)
  : result (list Vsi) :=
  Js.filter (filterCallback filterName filterState) allVsis.

(** ** Graph synthesis (page.tsx, lines 80-84 and 101-118) *)

(** The mutable locals of one pass. *)
Record SynthState : Type := mkSynth {
  newNodes : list Node;
  newEdges : list Edge;
  peerNodeMap : gmap (option string) Node;
  peerXPos : Z
}.

Definition vsiYPos : Z := 100.
Definition peerYPos : Z := 400.

(** [const newNodes = []; const newEdges = []; const peerNodeMap = new Map();
     let peerXPos = 100;] *)
Definition initialState : SynthState :=
  {| newNodes := []; newEdges := []; peerNodeMap := ∅; peerXPos := 100 |}.

(** [`vsi-${vsi.id}`] *)
Definition vsiNodeId (vsi : Vsi) : string :=
  "vsi-" +:+ pretty (vsi_id vsi).

(** [`peer-${peerIp}`] *)
Definition peerNodeId (peerIp : option string) : string :=
  "peer-" +:+ show_string peerIp.

(** [`edge-${vsi.id}-${peer.id}`] *)
Definition edgeId (vsi : Vsi) (peer : VsiPeerInfo) : string :=
  "edge-" +:+ pretty (vsi_id vsi) +:+ "-" +:+ pretty (peer_id peer).

(** [peer.pwState?.toLowerCase() === 'up'] *)
Definition isPeerUp (peer : VsiPeerInfo) : bool :=
  match pwState peer with
  | Some s => String.eqb (toLowerCase s) "up"
  | None => false
  end.

(** The node pushed for a record at position [vsiIndex] of the loop. *)
Definition vsiNodeOf (vsiIndex : nat) (vsi : Vsi) : Node :=
  {| node_id := vsiNodeId vsi;
     node_type := vsiNode;
     node_x := 150 + Z.of_nat vsiIndex * 250;
     node_y := vsiYPos;
     node_data := VsiData vsi |}.

(** The node created for a peer address not yet in [peerNodeMap]. *)
Definition peerNodeOf (x : Z) (peer : VsiPeerInfo) : Node :=
  {| node_id := peerNodeId (peerAddress peer);
     node_type := peerNode;
     node_x := x;
     node_y := peerYPos;
     node_data := PeerData (peerAddress peer) (peerDeviceName peer) |}.

(** The edge pushed for one peer link of a record. *)
Definition edgeOf (vsi : Vsi) (peer : VsiPeerInfo) : Edge :=
  let color := if isPeerUp peer then "#2ecc71" else "#e74c3c" in
  {| edge_id := edgeId vsi peer;
     source := vsiNodeId vsi;
     target := peerNodeId (peerAddress peer);
     stroke := color;
     strokeWidth := 2;
     animated := isPeerUp peer;
     markerColor := color;
     data_pwState := pwState peer;
     data_pwId := pwId peer |}.

(** Body of [vsi.peers.forEach((peer) => { ... })] (lines 108-115). *)
Definition peerBody (vsi : Vsi) (st : SynthState) (peer : VsiPeerInfo)
  : SynthState :=
  let peerIp := peerAddress peer in
  let st1 :=
    match peerNodeMap st !! peerIp with
    | Some _ => st
    | None =>
        let node := peerNodeOf (peerXPos st) peer in
        {| newNodes := newNodes st ++ [node];
           newEdges := newEdges st;
           peerNodeMap := <[peerIp := node]> (peerNodeMap st);
           peerXPos := peerXPos st + 200 |}
    end in
  {| newNodes := newNodes st1;
     newEdges := newEdges st1 ++ [edgeOf vsi peer];
     peerNodeMap := peerNodeMap st1;
     peerXPos := peerXPos st1 |}.

Definition forEachPeer (vsi : Vsi) (peers : list VsiPeerInfo) (st : SynthState)
  : SynthState :=
  foldl (peerBody vsi) st peers.

(** The links the inner loop visits: [vsi.peers?.length] guards it, so a
    missing or empty [peers] array visits none. *)
Definition peersOf (vsi : Vsi) : list VsiPeerInfo :=
  match vsi_peers vsi with
  | Some peers => peers
  | None => []
  end.

(** Body of [vsisToRender.forEach((vsi, vsiIndex) => { ... })] (lines 103-117). *)
Definition vsiBody (vsiIndex : nat) (vsi : Vsi) (st : SynthState) : SynthState :=
  let st1 :=
    {| newNodes := newNodes st ++ [vsiNodeOf vsiIndex vsi];
       newEdges := newEdges st;
       peerNodeMap := peerNodeMap st;
       peerXPos := peerXPos st |} in
  match vsi_peers vsi with
  | Some (peer :: peers) => forEachPeer vsi (peer :: peers) st1
  | Some [] | None => st1
  end.

Fixpoint forEachVsi (vsiIndex : nat) (vsis : list Vsi) (st : SynthState)
  : SynthState :=
  match vsis with
  | [] => st
  | vsi :: vsis' => forEachVsi (S vsiIndex) vsis' (vsiBody vsiIndex vsi st)
  end.

(** One synthesis pass over the filtered records. *)
Definition synthesize (vsisToRender : list Vsi) : SynthState :=
  forEachVsi 0 vsisToRender initialState.

(** ** The effect as a whole (lines 78-124) *)

(** Component state the effect reads and writes. *)
Record Component : Type := mkComponent {
  nodes : list Node;
  edges : list Edge;
  allVsis : list Vsi;
  filterName : string;
  filterState : string
}.

(** Filter, synthesize, then [setNodes(newNodes); setEdges(newEdges)].
    An exception in the filter leaves the component without an update. *)
Definition processData (c : Component) : result Component :=
  vsisToRender ← filteredVsis (allVsis c) (filterName c) (filterState c);
  let st := synthesize vsisToRender in
  Ok {| nodes := newNodes st;
        edges := newEdges st;
        allVsis := allVsis c;
        filterName := filterName c;
        filterState := filterState c |}.

(** ** Views of the output used in the statements *)

Definition isVsiNode (n : Node) : bool :=
  match node_type n with vsiNode => true | peerNode => false end.

Definition isPeerNode (n : Node) : bool :=
  match node_type n with peerNode => true | vsiNode => false end.

Definition vsiNodes (ns : list Node) : list Node := List.filter isVsiNode ns.
Definition peerNodes (ns : list Node) : list Node := List.filter isPeerNode ns.

(** Address held in a peer node's [data]. *)
Definition node_ip (n : Node) : option string :=
  match node_data n with
  | PeerData ip _ => ip
  | VsiData _ => None
  end.

Definition hasPeerData (n : Node) : Prop :=
  match node_data n with
  | PeerData _ _ => True
  | VsiData _ => False
  end.

(** All peer links of a record list, in iteration order. *)
Definition allLinks (vsis : list Vsi) : list VsiPeerInfo :=
  flat_map peersOf vsis.

(** ** Specification-side notions *)



(** [c] is one of the characters of [s]. *)
Fixpoint charIn (c : ascii) (s : string) : Prop :=
  match s with
  | EmptyString => False
  | String d s' => d = c \/ charIn c s'
  end.

(** State normalisation in the words of the specification: lower-case,
    then drop the marker when it is the last character. *)
Fixpoint stripTrailing (c : ascii) (s : string) : string :=
  match s with
  | EmptyString => EmptyString
  | String d EmptyString => if Ascii.eqb d c then EmptyString else s
  | String d s' => String d (stripTrailing c s')
  end.

Definition specNormalize (state : string) : string :=
  stripTrailing "*"%char (toLowerCase state).

(** Peer nodes the inner loop creates while visiting [links], when it
    starts with x-offset [x] and the addresses [seen] already registered. *)
Fixpoint freshPeerNodes (x : Z) (seen : gset (option string))
    (links : list VsiPeerInfo) : list Node :=
  match links with
  | [] => []
  | p :: ps =>
      if decide (peerAddress p ∈ seen) then freshPeerNodes x seen ps
      else peerNodeOf x p
             :: freshPeerNodes (x + 200) ({[peerAddress p]} ∪ seen) ps
  end.

(** The same link sequence with the device name blanked on every link
    that is not the first one carrying its address. *)
Fixpoint eraseLaterNames (seen : gset (option string))
    (links : list VsiPeerInfo) : list VsiPeerInfo :=
  match links with
  | [] => []
  | p :: ps =>
      if decide (peerAddress p ∈ seen) then
        {| peer_id := peer_id p; peerAddress := peerAddress p;
           pwId := pwId p; pwState := pwState p; peerDeviceName := None |}
          :: eraseLaterNames seen ps
      else p :: eraseLaterNames ({[peerAddress p]} ∪ seen) ps
  end.

(** Edges of a record list: one per record and link, in loop order. *)
Definition allEdges (vsis : list Vsi) : list Edge :=
  flat_map (fun vsi => map (edgeOf vsi) (peersOf vsi)) vsis.

(** Peer nodes already pushed, followed by those the remaining links
    will add: this list never changes while the loops run. *)
Definition peerOutlook (st : SynthState) (rest : list VsiPeerInfo) : list Node :=
  peerNodes (newNodes st)
  ++ freshPeerNodes (peerXPos st) (dom (peerNodeMap st)) rest.

(** ** Sample data *)

(** The two records of the worked example: both link to 10.0.0.1. *)
Definition exampleRecords : list Vsi :=
  [ {| vsi_id := 1; vsi_name := Some "VSI-A"; vsi_state := Some "up*";
       vsi_peers := Some [ {| peer_id := 10; peerAddress := Some "10.0.0.1";
                              pwId := None; pwState := Some "up";
                              peerDeviceName := None |} ] |};
    {| vsi_id := 2; vsi_name := Some "VSI-B"; vsi_state := Some "down";
       vsi_peers := Some [ {| peer_id := 11; peerAddress := Some "10.0.0.1";
                              pwId := None; pwState := Some "down";
                              peerDeviceName := None |} ] |} ].

Definition exampleComponent : Component :=
  {| nodes := []; edges := []; allVsis := exampleRecords;
     filterName := ""; filterState := "" |}.

(** A link whose address is the empty string, and the record holding it. *)
Definition blankLink : VsiPeerInfo :=
  {| peer_id := 10; peerAddress := Some ""; pwId := Some 7;
     pwState := Some "up"; peerDeviceName := None |}.

Definition blankLinkRecord : Vsi :=
  {| vsi_id := 1; vsi_name := Some "VSI-A"; vsi_state := Some "up";
     vsi_peers := Some [blankLink] |}.

(** A link without any address. *)
Definition addresslessLink : VsiPeerInfo :=
  {| peer_id := 12; peerAddress := None; pwId := Some 8;
     pwState := Some "down"; peerDeviceName := None |}.

Definition addresslessRecord : Vsi :=
  {| vsi_id := 3; vsi_name := Some "VSI-C"; vsi_state := Some "down";
     vsi_peers := Some [addresslessLink] |}.

(** Records differing in one field only. *)
Definition stateRecord (state : option string) : Vsi :=
  {| vsi_id := 1; vsi_name := Some "VSI-A"; vsi_state := state;
     vsi_peers := None |}.

Definition nameRecord (name : option string) : Vsi :=
  {| vsi_id := 1; vsi_name := name; vsi_state := Some "up";
     vsi_peers := None |}.

(** Two records linking to one address under different device names. *)
Definition namedTwice (later : option string) : list Vsi :=
  [ {| vsi_id := 1; vsi_name := Some "VSI-A"; vsi_state := Some "up";
       vsi_peers := Some [ {| peer_id := 10; peerAddress := Some "10.0.0.1";
                              pwId := Some 1; pwState := Some "up";
                              peerDeviceName := Some "core-1" |} ] |};
    {| vsi_id := 2; vsi_name := Some "VSI-B"; vsi_state := Some "up";
       vsi_peers := Some [ {| peer_id := 11; peerAddress := Some "10.0.0.1";
                              pwId := Some 2; pwState := Some "up";
                              peerDeviceName := later |} ] |} ].

(** A component showing an older graph, whose dataset holds one more
    record that the name filter "vsi-" rejects. *)
Definition staleComponent : Component :=
  {| nodes := [vsiNodeOf 7 (nameRecord (Some "old"))];
     edges := [edgeOf blankLinkRecord blankLink];
     allVsis := exampleRecords ++ [nameRecord (Some "CORE-SW1")];
     filterName := "vsi-";
     filterState := "" |}.

(** ** Further views of a pass *)

(** Where a node is drawn: its [position: { x, y }]. *)
Definition node_pos (n : Node) : Z * Z := (node_x n, node_y n).

(** The (record id, link id) pair behind every edge, in loop order. *)
Definition linkKeys (vsis : list Vsi) : list (Z * Z) :=
  flat_map (fun vsi => map (fun peer => (vsi_id vsi, peer_id peer)) (peersOf vsi))
           vsis.

(** How [peerNodeMap], [peerXPos] and the peer nodes pushed into
    [newNodes] relate while the loops run. *)
Record Coherent (st : SynthState) : Prop := mkCoherent {
  coh_lookup : forall k n,
    peerNodeMap st !! k = Some n
    <-> n ∈ peerNodes (newNodes st) /\ node_ip n = k;
  coh_size : size (peerNodeMap st) = length (peerNodes (newNodes st));
  coh_xpos : peerXPos st = 100 + 200 * Z.of_nat (length (peerNodes (newNodes st)))
}.

(** ** Node renderers (page.tsx, lines 24-39) *)

(** [c.toUpperCase()] on one ASCII character. *)
Definition upper_ascii (c : ascii) : ascii :=
  let n := N_of_ascii c in
  if ((97 <=? n) && (n <=? 122))%N then ascii_of_N (n - 32) else c.

(** [s.toUpperCase()] *)
Fixpoint toUpperCase (s : string) : string :=
  match s with
  | EmptyString => EmptyString
  | String c s' => String (upper_ascii c) (toUpperCase s')
  end.

(** Text of the state badge of a record node:
    [data.state?.toUpperCase().replace('*','')]; nothing is shown for a
    missing state. *)
Definition stateBadgeText (state : option string) : option string :=
  match state with
  | Some s => Some (replace_first "*" (toUpperCase s))
  | None => None
  end.

(** ** Status badge of the device page (VsiForDevice.tsx, lines 121-132) *)

(** The [React.CSSProperties] object the helper returns. *)
Record CSSProperties : Type := mkCSS {
  display : string;
  padding : string;
  fontSize : string;
  fontWeight : string;
  lineHeight : string;
  textAlign : string;
  whiteSpace : string;
  verticalAlign : string;
  borderRadius : string;
  backgroundColor : string;
  color : string;
  border : string
}.

(** [if (!status) { status = 'unknown'; }]: a missing or empty status. *)
Definition statusOrUnknown (status : option string) : string :=
  match status with
  | Some s => if truthy s then s else "unknown"
  | None => "unknown"
  end.

(** The three colours a [switch] leaves in
    [backgroundColor], [color], [borderColor]. *)
Definition Palette : Type := (string * string * string)%type.

Definition green : Palette := ("#d4edda", "#155724", "#c3e6cb").
Definition red : Palette := ("#f8d7da", "#721c24", "#f5c6cb").
Definition yellow : Palette := ("#fff3cd", "#856404", "#ffeeba").
Definition grey : Palette := ("#e2e3e5", "#383d41", "#d6d8db").

(** The [switch (lowerStatus)]: every branch, the default included,
    assigns all three variables, so their initial values never survive. *)
Definition vsiSwitch (lowerStatus : string) : Palette :=
  if String.eqb lowerStatus "up" || String.eqb lowerStatus "established"
  then green
  else if String.eqb lowerStatus "down" then red
  else if String.eqb lowerStatus "active" then yellow
  else grey.

Definition getStatusBadgeStyle (status : option string) : CSSProperties :=
  let status := statusOrUnknown status in
  let lowerStatus := replace_first "*" (toLowerCase status) in
  let '(backgroundColor, color, borderColor) := vsiSwitch lowerStatus in
  {| display := "inline-block"; padding := "2px 6px"; fontSize := "0.8em";
     fontWeight := "bold"; lineHeight := "1"; textAlign := "center";
     whiteSpace := "nowrap"; verticalAlign := "baseline";
     borderRadius := ".25rem";
     backgroundColor := backgroundColor; color := color;
     border := "1px solid " +:+ borderColor |}.

(** ** Device form validation (DeviceManagement.tsx, lines 54-66) *)

(** Regular expressions, as far as the form's pattern needs them. *)
Inductive regex : Type :=
| Void                              (* no string; only met as a derivative *)
| Eps                               (* the empty string *)
| Class (p : ascii -> bool)         (* one character of a class *)
| Seq (r1 r2 : regex)
| Alt (r1 r2 : regex).

(** The strings of a regular expression. *)
Inductive matches : regex -> string -> Prop :=
| matches_Eps : matches Eps ""
| matches_Class p c : p c = true -> matches (Class p) (String c "")
| matches_Seq r1 r2 s1 s2 :
    matches r1 s1 -> matches r2 s2 -> matches (Seq r1 r2) (s1 +:+ s2)
| matches_Alt_l r1 r2 s : matches r1 s -> matches (Alt r1 r2) s
| matches_Alt_r r1 r2 s : matches r2 s -> matches (Alt r1 r2) s.

Fixpoint nullable (r : regex) : bool :=
  match r with
  | Void => false
  | Eps => true
  | Class _ => false
  | Seq r1 r2 => nullable r1 && nullable r2
  | Alt r1 r2 => nullable r1 || nullable r2
  end.

Fixpoint deriv (c : ascii) (r : regex) : regex :=
  match r with
  | Void => Void
  | Eps => Void
  | Class p => if p c then Eps else Void
  | Seq r1 r2 =>
      Alt (Seq (deriv c r1) r2) (if nullable r1 then deriv c r2 else Void)
  | Alt r1 r2 => Alt (deriv c r1) (deriv c r2)
  end.

(** [/^r$/.test(s)]: the whole of [s] is a string of [r]. *)
Fixpoint regexTest (r : regex) (s : string) : bool :=
  match s with
  | EmptyString => nullable r
  | String c s' => regexTest (deriv c r) s'
  end.

(** [\d]: an ASCII decimal digit. *)
Definition isDigit (c : ascii) : bool :=
  ((48 <=? N_of_ascii c) && (N_of_ascii c <=? 57))%N.

(** [\.]: a literal dot. *)
Definition isDot (c : ascii) : bool := Ascii.eqb c ".".

(** [r{1,3}] *)
Definition oneToThree (r : regex) : regex :=
  Seq r (Alt Eps (Seq r (Alt Eps r))).

(** [\d{1,3}\.\d{1,3}\.\d{1,3}\.\d{1,3}] *)
Definition ipPattern : regex :=
  Seq (oneToThree (Class isDigit))
   (Seq (Class isDot)
    (Seq (oneToThree (Class isDigit))
     (Seq (Class isDot)
      (Seq (oneToThree (Class isDigit))
       (Seq (Class isDot)
        (oneToThree (Class isDigit))))))).

(** What [handleSubmit] ends in: one of its two alerts, or the call
    [onSubmit({ name, ip })]. *)
Inductive FormAction : Type :=
| Alert (message : string)
| Submit (name ip : string).

Definition handleSubmit (name ip : string) : FormAction :=
  if negb (truthy name) || negb (truthy ip) then
    Alert "Name and IP address are required."
  else if negb (regexTest ipPattern ip) then
    Alert "Please enter a valid IP address format (e.g., 192.168.1.1)."
  else Submit name ip.

(** One to three decimal digits. *)
Definition digitGroup (a : string) : Prop :=
  (1 <= String.length a <= 3)%nat /\ forall c, charIn c a -> isDigit c = true.

(** Four digit groups separated by dots. *)
Definition dottedQuad (ip : string) : Prop :=
  exists a b c d,
    digitGroup a /\ digitGroup b /\ digitGroup c /\ digitGroup d
    /\ ip = a +:+ "." +:+ b +:+ "." +:+ c +:+ "." +:+ d.

(** Decidable form of [digitGroup], for checking many texts at once. *)
Fixpoint allDigits (a : string) : bool :=
  match a with
  | EmptyString => true
  | String c a' => isDigit c && allDigits a'
  end.

Definition isDigitGroup (a : string) : bool :=
  (1 <=? String.length a)%nat && (String.length a <=? 3)%nat && allDigits a.

(** ** The filter over an arbitrary case folding *)

Section Folding.

(** Whatever [String.prototype.toLowerCase] computes. *)
Variable fold : string -> string.





End Folding.


(** ** Console output of the effect (page.tsx, lines 79, 92 and 122) *)

(** The effect logs one line before filtering, one after it and one after
    the loops; the loops themselves (lines 102-118) write nothing. When the
    filter throws only the first line has been written. *)
Definition effectConsole (c : Component) : list string :=
  ("Processing data based on filters: Name='" +:+ filterName c
   +:+ "', State='" +:+ filterState c +:+ "'")
  :: match filteredVsis (allVsis c) (filterName c) (filterState c) with
     | Ok vsisToRender =>
         let st := synthesize vsisToRender in
         [ "Filtered down to " +:+ pretty (length vsisToRender) +:+ " VSIs.";
           "Generated " +:+ pretty (length (newNodes st)) +:+ " nodes and "
           +:+ pretty (length (newEdges st)) +:+ " edges for ReactFlow." ]
     | TypeError => []
     end.

(** A component whose dataset holds a link with an empty address and a
    link without one. *)
Definition blankLinkComponent : Component :=
  {| nodes := []; edges := [];
     allVsis := [blankLinkRecord; addresslessRecord];
     filterName := ""; filterState := "" |}.

(** ** Facts about the string primitives *)

Section StringFacts.

Local Arguments String.append !_ _ /.


Lemma truthy_true (s : string) : truthy s = true <-> s <> "".
Proof. destruct s; simpl; split; congruence. Qed.





Lemma replace_first_absent (c : ascii) (s : string) :
  ~ charIn c s -> replace_first c s = s.
Proof.
  induction s as [|d s IH]; simpl; [reflexivity|]. intros H.
  destruct (Ascii.eqb_spec d c) as [->|Hne]; [tauto|].
  rewrite IH; tauto.
Qed.

Lemma replace_first_present (c : ascii) (pre suf : string) :
  ~ charIn c pre ->
  replace_first c (pre +:+ String c suf) = pre +:+ suf.
Proof.
  induction pre as [|d pre IH]; simpl; intros H.
  - now rewrite Ascii.eqb_refl.
  - destruct (Ascii.eqb_spec d c) as [->|Hne]; [tauto|].
    rewrite IH; tauto.
Qed.

(** When the marker can only be the last character, removing its first
    occurrence is removing the trailing one. *)
Lemma replace_first_trailing (c : ascii) (s : string) :
  ~ charIn c s -> 
  replace_first c (s +:+ String c "") = stripTrailing c (s +:+ String c "")
  /\ replace_first c s = stripTrailing c s.
Proof.
  induction s as [|d s IH]; intros H.
  - simpl. now rewrite Ascii.eqb_refl.
  - simpl in H. destruct (IH ltac:(tauto)) as [IH1 IH2].
    cbn [String.append replace_first].
    destruct (Ascii.eqb_spec d c) as [->|Hne]; [tauto|]. split.
    + rewrite IH1. destruct s; reflexivity.
    + rewrite IH2. destruct s as [|e s]; [|reflexivity].
      simpl. destruct (Ascii.eqb_spec d c); congruence.
Qed.

End StringFacts.

(** ** Facts about the filter *)

Section FilterFacts.

Context {A : Type}.
Implicit Types (cb : A -> result bool) (p : A -> bool) (xs : list A).

(** A callback that never throws turns [Js.filter] into [List.filter]. *)
Lemma filter_total cb p xs :
  (forall x, In x xs -> cb x = Ok (p x)) ->
  Js.filter cb xs = Ok (List.filter p xs).
Proof.
  induction xs as [|x xs IH]; intros H; simpl; [reflexivity|].
  rewrite (H x) by (now left). simpl.
  rewrite IH by (intros y Hy; apply H; now right). simpl.
  now destruct (p x).
Qed.

(** A completed [Js.filter] ran the callback without exception on every
    element and kept exactly the accepted ones, in order. *)
Lemma filter_Ok_inv cb xs l :
  Js.filter cb xs = Ok l ->
  exists p, (forall x, In x xs -> cb x = Ok (p x)) /\ l = List.filter p xs.
Proof.
  revert l. induction xs as [|x xs IH]; intros l H; simpl in H.
  - injection H as <-. exists (fun _ => true). split; [intros ? []|reflexivity].
  - destruct (cb x) as [b|] eqn:Hx; simpl in H; [|discriminate].
    destruct (Js.filter cb xs) as [r|] eqn:Hr; simpl in H; [|discriminate].
    injection H as <-. destruct (IH r eq_refl) as (p & Hp & ->).
    exists (fun y => match cb y with Ok c => c | TypeError => false end).
    split.
    + intros y [<-|Hy]; [now rewrite Hx|]. now rewrite (Hp y Hy).
    + simpl. rewrite Hx. 
      assert (E : List.filter p xs =
                  List.filter (fun y => match cb y with Ok c => c | TypeError => false end) xs).
      { apply List.filter_ext_in. intros y Hy. now rewrite (Hp y Hy). }
      rewrite E. reflexivity.
Qed.

Lemma list_filter_sublist p xs : sublist (List.filter p xs) xs.
Proof.
  induction xs as [|x xs IH]; simpl; [constructor|].
  destruct (p x); now constructor.
Qed.

End FilterFacts.

(** ** Facts about the synthesis loops *)

Section SynthFacts.

Implicit Types (st : SynthState) (vsi : Vsi) (peer : VsiPeerInfo).

Lemma vsiBody_peersOf i vsi st :
  vsiBody i vsi st =
  forEachPeer vsi (peersOf vsi)
    {| newNodes := newNodes st ++ [vsiNodeOf i vsi];
       newEdges := newEdges st;
       peerNodeMap := peerNodeMap st;
       peerXPos := peerXPos st |}.
Proof.
  unfold vsiBody, peersOf. destruct (vsi_peers vsi) as [[|p ps]|]; reflexivity.
Qed.

(** *** Edges *)

Lemma peerBody_edges vsi st peer :
  newEdges (peerBody vsi st peer) = newEdges st ++ [edgeOf vsi peer].
Proof. unfold peerBody. now destruct (peerNodeMap st !! peerAddress peer). Qed.

Lemma forEachPeer_edges vsi peers st :
  newEdges (forEachPeer vsi peers st) = newEdges st ++ map (edgeOf vsi) peers.
Proof.
  unfold forEachPeer. revert st.
  induction peers as [|p ps IH]; intros st; simpl.
  - now rewrite app_nil_r.
  - rewrite IH, peerBody_edges, <- app_assoc. reflexivity.
Qed.

Lemma forEachVsi_edges i vsis st :
  newEdges (forEachVsi i vsis st) = newEdges st ++ allEdges vsis.
Proof.
  revert i st. induction vsis as [|v vs IH]; intros i st; simpl.
  - now rewrite app_nil_r.
  - rewrite IH, vsiBody_peersOf, forEachPeer_edges, <- app_assoc. reflexivity.
Qed.

(** *** Record nodes *)

Lemma vsiNodes_app (l1 l2 : list Node) :
  vsiNodes (l1 ++ l2) = vsiNodes l1 ++ vsiNodes l2.
Proof. apply List.filter_app. Qed.

Lemma peerNodes_app (l1 l2 : list Node) :
  peerNodes (l1 ++ l2) = peerNodes l1 ++ peerNodes l2.
Proof. apply List.filter_app. Qed.

Lemma peerBody_vsiNodes vsi st peer :
  vsiNodes (newNodes (peerBody vsi st peer)) = vsiNodes (newNodes st).
Proof.
  unfold peerBody. destruct (peerNodeMap st !! peerAddress peer); simpl.
  - reflexivity.
  - rewrite vsiNodes_app. simpl. now rewrite app_nil_r.
Qed.

Lemma forEachPeer_vsiNodes vsi peers st :
  vsiNodes (newNodes (forEachPeer vsi peers st)) = vsiNodes (newNodes st).
Proof.
  unfold forEachPeer. revert st.
  induction peers as [|p ps IH]; intros st; simpl; [reflexivity|].
  now rewrite IH, peerBody_vsiNodes.
Qed.

Lemma forEachVsi_vsiNodes i vsis st :
  vsiNodes (newNodes (forEachVsi i vsis st)) =
  vsiNodes (newNodes st) ++ imap (fun j => vsiNodeOf (i + j)) vsis.
Proof.
  revert i st. induction vsis as [|v vs IH]; intros i st; simpl.
  - now rewrite app_nil_r.
  - rewrite IH, vsiBody_peersOf, forEachPeer_vsiNodes. simpl.
    rewrite vsiNodes_app, <- app_assoc. simpl.
    rewrite Nat.add_0_r. do 2 f_equal.
    apply imap_ext. intros j x _. simpl. f_equal. lia.
Qed.

(** *** Peer nodes: the loop invariant *)

Lemma peerBody_outlook vsi st peer rest :
  peerOutlook (peerBody vsi st peer) rest = peerOutlook st (peer :: rest).
Proof.
  unfold peerOutlook, peerBody. cbn [freshPeerNodes].
  destruct (peerNodeMap st !! peerAddress peer) as [n|] eqn:Hk; simpl.
  - rewrite decide_True; [reflexivity|].
    apply elem_of_dom. eauto.
  - rewrite decide_False by (now apply not_elem_of_dom).
    rewrite peerNodes_app, dom_insert_L, <- app_assoc. reflexivity.
Qed.

Lemma forEachPeer_outlook vsi peers st rest :
  peerOutlook (forEachPeer vsi peers st) rest = peerOutlook st (peers ++ rest).
Proof.
  unfold forEachPeer. revert st.
  induction peers as [|p ps IH]; intros st; simpl; [reflexivity|].
  now rewrite IH, peerBody_outlook.
Qed.

Lemma forEachVsi_outlook i vsis st rest :
  peerOutlook (forEachVsi i vsis st) rest
  = peerOutlook st (allLinks vsis ++ rest).
Proof.
  revert i st. induction vsis as [|v vs IH]; intros i st; simpl; [reflexivity|].
  rewrite IH, vsiBody_peersOf, forEachPeer_outlook, <- app_assoc.
  unfold peerOutlook. simpl. rewrite peerNodes_app. simpl.
  now rewrite app_nil_r.
Qed.

Lemma synthesize_edges vsis : newEdges (synthesize vsis) = allEdges vsis.
Proof. unfold synthesize. now rewrite forEachVsi_edges. Qed.

Lemma synthesize_vsiNodes vsis :
  vsiNodes (newNodes (synthesize vsis)) = imap vsiNodeOf vsis.
Proof. unfold synthesize. now rewrite forEachVsi_vsiNodes. Qed.

Lemma synthesize_peerNodes vsis :
  peerNodes (newNodes (synthesize vsis)) = freshPeerNodes 100 ∅ (allLinks vsis).
Proof.
  pose proof (forEachVsi_outlook 0 vsis initialState []) as H.
  unfold peerOutlook in H. simpl in H.
  rewrite !app_nil_r, dom_empty_L in H. exact H.
Qed.

End SynthFacts.

(** ** Facts about the peer nodes a pass creates *)

Section FreshFacts.

Implicit Types (seen : gset (option string)) (links : list VsiPeerInfo).

(** Every created node stems from the first link carrying its address. *)
Lemma fresh_first_link x seen links n :
  n ∈ freshPeerNodes x seen links ->
  exists pre p suf y,
    links = pre ++ p :: suf
    /\ (peerAddress p ∉ seen)
    /\ (forall q, q ∈ pre -> peerAddress q <> peerAddress p)
    /\ n = peerNodeOf y p.
Proof.
  revert x seen. induction links as [|p ps IH]; intros x seen Hn; simpl in Hn.
  - now apply elem_of_nil in Hn.
  - destruct (decide (peerAddress p ∈ seen)) as [Hin|Hout].
    + destruct (IH _ _ Hn) as (pre & p' & suf & y & -> & Hs & Hpre & ->).
      exists (p :: pre), p', suf, y. repeat split; try assumption.
      intros q Hq. apply elem_of_cons in Hq as [->|Hq]; [|now apply Hpre].
      congruence.
    + apply elem_of_cons in Hn as [->|Hn].
      * exists [], p, ps, x. repeat split; try assumption.
        intros q Hq. now apply elem_of_nil in Hq.
      * destruct (IH _ _ Hn) as (pre & p' & suf & y & -> & Hs & Hpre & ->).
        apply not_elem_of_union in Hs as [Hs1 Hs2].
        apply not_elem_of_singleton in Hs1.
        exists (p :: pre), p', suf, y. repeat split; try assumption.
        intros q Hq. apply elem_of_cons in Hq as [->|Hq]; [|now apply Hpre].
        congruence.
Qed.

Lemma fresh_keys x seen links k :
  k ∈ map node_ip (freshPeerNodes x seen links)
  <-> (k ∉ seen) /\ k ∈ map peerAddress links.
Proof.
  revert x seen. induction links as [|p ps IH]; intros x seen; simpl.
  - rewrite elem_of_nil. tauto.
  - destruct (decide (peerAddress p ∈ seen)) as [Hin|Hout]; simpl.
    + rewrite IH, elem_of_cons. split; [tauto|].
      intros [Hk [->|Hk']]; tauto.
    + rewrite !elem_of_cons, IH.
      rewrite not_elem_of_union, not_elem_of_singleton.
      destruct (decide (k = peerAddress p)) as [->|Hne]; tauto.
Qed.

Lemma fresh_keys_NoDup x seen links :
  NoDup (map node_ip (freshPeerNodes x seen links)).
Proof.
  revert x seen. induction links as [|p ps IH]; intros x seen; simpl.
  - constructor.
  - destruct (decide (peerAddress p ∈ seen)) as [Hin|Hout]; simpl; [apply IH|].
    constructor; [|apply IH].
    rewrite fresh_keys, not_elem_of_union, not_elem_of_singleton. tauto.
Qed.

Lemma fresh_erase x seen links :
  freshPeerNodes x seen (eraseLaterNames seen links)
  = freshPeerNodes x seen links.
Proof.
  revert x seen. induction links as [|p ps IH]; intros x seen; simpl.
  - reflexivity.
  - destruct (decide (peerAddress p ∈ seen)) as [Hin|Hout]; simpl.
    + rewrite decide_True by assumption. apply IH.
    + rewrite decide_False by assumption. now rewrite IH.
Qed.

Lemma elem_of_allLinks (vsis : list Vsi) (p : VsiPeerInfo) :
  p ∈ allLinks vsis <-> exists vsi, vsi ∈ vsis /\ p ∈ peersOf vsi.
Proof.
  unfold allLinks. rewrite list_elem_of_In, in_flat_map.
  split; intros (v & Hv & Hp); exists v; rewrite ?list_elem_of_In in *; auto.
Qed.

Lemma elem_of_allEdges (vsis : list Vsi) (e : Edge) :
  e ∈ allEdges vsis
  <-> exists vsi p, vsi ∈ vsis /\ p ∈ peersOf vsi /\ e = edgeOf vsi p.
Proof.
  unfold allEdges. rewrite list_elem_of_In, in_flat_map. split.
  - intros (v & Hv & He). apply in_map_iff in He as (p & <- & Hp).
    exists v, p. rewrite !list_elem_of_In. auto.
  - intros (v & p & Hv & Hp & ->). exists v. rewrite <- list_elem_of_In.
    split; [assumption|]. apply in_map. now apply list_elem_of_In.
Qed.

End FreshFacts.

(** ** Record nodes (C2) *)

Lemma map_imap_const {A B C : Type} (f : nat -> A -> B) (g : B -> C)
    (h : A -> C) (l : list A) :
  (forall i x, g (f i x) = h x) -> map g (imap f l) = map h l.
Proof.
  revert f. induction l as [|x l IH]; intros f H; simpl; [reflexivity|].
  rewrite H. f_equal. apply IH. intros i y. apply H.
Qed.

(** C2. The vsi-kind nodes of a pass are exactly the nodes built from
    the filtered records, one per record and in the same order: there are
    as many as records, and the i-th has id "vsi-" followed by the id of
    the i-th record. *)
Theorem vsi_nodes_one_per_record (vsisToRender : list Vsi) :
  let vs := vsiNodes (newNodes (synthesize vsisToRender)) in
  length vs = length vsisToRender
  /\ vs = imap vsiNodeOf vsisToRender
  /\ map node_id vs
     = map (fun vsi => "vsi-" +:+ pretty (vsi_id vsi)) vsisToRender.
Proof.
  cbv zeta. rewrite synthesize_vsiNodes. repeat split.
  - apply length_imap.
  - now apply map_imap_const.
Qed.

(** ** Edges (C9) *)

Lemma isPeerUp_spec (p : VsiPeerInfo) :
  isPeerUp p = true <-> exists s, pwState p = Some s /\ toLowerCase s = "up".
Proof.
  unfold isPeerUp. destruct (pwState p) as [s|].
  - rewrite String.eqb_eq. split; [eauto|]. now intros (s' & [= <-] & H).
  - split; [discriminate|]. now intros (s' & [=] & _).
Qed.

Lemma length_allEdges (vsis : list Vsi) :
  length (allEdges vsis) = length (allLinks vsis).
Proof.
  unfold allEdges, allLinks. induction vsis as [|v vs IH]; simpl; [reflexivity|].
  now rewrite !length_app, length_map, IH.
Qed.



(** ** Peer nodes (C1, C10, C4) *)

Lemma peerNodeId_inj (a b : string) :
  peerNodeId (Some a) = peerNodeId (Some b) -> a = b.
Proof. unfold peerNodeId. simpl. apply String.app_inj. Qed.

Lemma fresh_shape x seen links n :
  n ∈ freshPeerNodes x seen links ->
  hasPeerData n /\ node_id n = peerNodeId (node_ip n).
Proof.
  intros Hn. apply fresh_first_link in Hn as (_ & p & _ & y & _ & _ & _ & ->).
  split; [exact I | reflexivity].
Qed.

(** C1. In the output of a pass the peer nodes are keyed by address: no
    two of them hold the same address, and an address is held by a peer
    node exactly when some link of some filtered record carries it. Each
    peer node has id "peer-" followed by its address. Every link's edge
    targets the id of the node of its address, so two links with equal
    addresses resolve to the same id whatever their records, and two links
    with different addresses resolve to different ids. *)
Theorem one_peer_node_per_address (vsisToRender : list Vsi) :
  let out := synthesize vsisToRender in
  let ps := peerNodes (newNodes out) in
  NoDup (map node_ip ps)
  /\ (forall k, k ∈ map node_ip ps <-> k ∈ map peerAddress (allLinks vsisToRender))
  /\ (forall n, n ∈ ps -> hasPeerData n /\ node_id n = peerNodeId (node_ip n))
  /\ (forall vsi peer, vsi ∈ vsisToRender -> peer ∈ peersOf vsi ->
        edgeOf vsi peer ∈ newEdges out
        /\ target (edgeOf vsi peer) = "peer-" +:+ show_string (peerAddress peer)
        /\ exists n, n ∈ ps /\ node_ip n = peerAddress peer
                     /\ node_id n = target (edgeOf vsi peer))
  /\ (forall vsi1 peer1 vsi2 peer2,
        peerAddress peer1 = peerAddress peer2 ->
        target (edgeOf vsi1 peer1) = target (edgeOf vsi2 peer2))
  /\ (forall vsi1 peer1 vsi2 peer2 a1 a2,
        peerAddress peer1 = Some a1 -> peerAddress peer2 = Some a2 ->
        a1 <> a2 ->
        target (edgeOf vsi1 peer1) <> target (edgeOf vsi2 peer2)).
Proof.
  cbv zeta. rewrite synthesize_peerNodes, synthesize_edges.
  split; [apply fresh_keys_NoDup|].
  split.
  { intros k. rewrite fresh_keys. split; [tauto|].
    intros H. split; [apply not_elem_of_empty | exact H]. }
  split; [intros n; apply fresh_shape|].
  split; [|split].
  - intros vsi peer Hv Hp. split; [|split; [reflexivity|]].
    + apply elem_of_allEdges. eauto.
    + assert (Hk : peerAddress peer
                   ∈ map node_ip (freshPeerNodes 100 ∅ (allLinks vsisToRender))).
      { apply fresh_keys. split; [apply not_elem_of_empty|].
        apply list_elem_of_fmap. exists peer. split; [reflexivity|].
        apply elem_of_allLinks. eauto. }
      apply list_elem_of_fmap in Hk as (n & Hip & Hn).
      exists n. split; [assumption|]. split; [congruence|].
      destruct (fresh_shape _ _ _ _ Hn) as [_ ->]. simpl. congruence.
  - intros vsi1 peer1 vsi2 peer2 H. simpl. now rewrite H.
  - intros vsi1 peer1 vsi2 peer2 a1 a2 H1 H2 Hne. simpl. rewrite H1, H2.
    intros E. apply Hne. now apply peerNodeId_inj.
Qed.

Lemma one_peer_node_per_address_witness :
  let e1 := edgeOf blankLinkRecord blankLink in
  let e2 := edgeOf addresslessRecord
              {| peer_id := 13; peerAddress := Some "10.0.0.9"; pwId := None;
                 pwState := None; peerDeviceName := None |} in
  e1 ∈ newEdges (synthesize [blankLinkRecord]) /\ target e1 <> target e2.
Proof.
  destruct (one_peer_node_per_address [blankLinkRecord])
    as (_ & _ & _ & Hlink & _ & Hdiff).
  cbv zeta. split.
  - apply (Hlink blankLinkRecord blankLink).
    + apply list_elem_of_here.
    + apply list_elem_of_here.
  - apply (Hdiff _ _ _ _ "" "10.0.0.9"); [reflexivity | reflexivity | discriminate].
Defined.

(** C10. Every peer node of a pass takes its payload, the address and
    the device name, from the first link in iteration order that carries
    its address. Device names on later links with that address do not
    reach the peer nodes: two inputs whose link sequences agree once those
    later names are blanked yield the same peer nodes. *)
Theorem peer_payload_from_first_link (vsisToRender : list Vsi) :
  (forall n, n ∈ peerNodes (newNodes (synthesize vsisToRender)) ->
     exists pre first suf,
       allLinks vsisToRender = pre ++ first :: suf
       /\ (forall q, q ∈ pre -> peerAddress q <> peerAddress first)
       /\ node_data n = PeerData (peerAddress first) (peerDeviceName first))
  /\ (forall other : list Vsi,
        eraseLaterNames ∅ (allLinks other)
        = eraseLaterNames ∅ (allLinks vsisToRender) ->
        peerNodes (newNodes (synthesize other))
        = peerNodes (newNodes (synthesize vsisToRender))).
Proof.
  split.
  - intros n Hn. rewrite synthesize_peerNodes in Hn.
    apply fresh_first_link in Hn as (pre & p & suf & y & E & _ & Hpre & ->).
    exists pre, p, suf. auto.
  - intros other E. rewrite !synthesize_peerNodes.
    rewrite <- (fresh_erase _ _ (allLinks other)), E. apply fresh_erase.
Qed.

Lemma peer_payload_from_first_link_witness :
  map node_data (peerNodes (newNodes (synthesize (namedTwice (Some "edge-7")))))
  = [PeerData (Some "10.0.0.1") (Some "core-1")]
  /\ peerNodes (newNodes (synthesize (namedTwice (Some "edge-7"))))
     = peerNodes (newNodes (synthesize (namedTwice None))).
Proof.
  split; [reflexivity|].
  apply (peer_payload_from_first_link (namedTwice None)). reflexivity.
Defined.

(** C4 as stated fails: a link whose address is the empty string is not
    skipped. Its edge is in the output and a peer node holds its address. *)
Lemma blank_address_not_skipped :
  ~ ((edgeOf blankLinkRecord blankLink ∉ newEdges (synthesize [blankLinkRecord]))
     /\ forall n, n ∈ peerNodes (newNodes (synthesize [blankLinkRecord])) ->
                  node_ip n <> peerAddress blankLink).
Proof.
  intros [Hedge _]. apply Hedge. vm_compute. apply list_elem_of_here.
Qed.

(** C4, amended. No peer link is skipped: for every peer link of every
    filtered record, whatever its address and so also when the address is
    empty or missing, the pass emits the link's edge, and the output holds
    a peer node that carries the link's address and whose id is the edge's
    target, "peer-" when the address is the empty string. The number of
    edges is the number of links. Nothing is logged for a link: the
    console output of a run over these records is the three summary lines
    of the effect. *)
Theorem no_link_is_skipped (vsisToRender : list Vsi) (vsi : Vsi)
    (peer : VsiPeerInfo) :
  vsi ∈ vsisToRender -> peer ∈ peersOf vsi ->
  let out := synthesize vsisToRender in
  edgeOf vsi peer ∈ newEdges out
  /\ (exists n, n ∈ peerNodes (newNodes out)
                /\ node_ip n = peerAddress peer
                /\ node_id n = target (edgeOf vsi peer))
  /\ (peerAddress peer = Some "" -> target (edgeOf vsi peer) = "peer-")
  /\ length (newEdges out) = length (allLinks vsisToRender)
  /\ (forall c : Component,
        filteredVsis (allVsis c) (filterName c) (filterState c)
        = Ok vsisToRender ->
        effectConsole c
        = [ "Processing data based on filters: Name='" +:+ filterName c
            +:+ "', State='" +:+ filterState c +:+ "'";
            "Filtered down to " +:+ pretty (length vsisToRender) +:+ " VSIs.";
            "Generated " +:+ pretty (length (newNodes out)) +:+ " nodes and "
            +:+ pretty (length (newEdges out)) +:+ " edges for ReactFlow." ]).
Proof.
  intros Hv Hp. cbv zeta. split; [|split; [|split; [|split]]].
  - rewrite synthesize_edges. apply elem_of_allEdges. eauto.
  - rewrite synthesize_peerNodes.
    assert (Hk : peerAddress peer
                 ∈ map node_ip (freshPeerNodes 100 ∅ (allLinks vsisToRender))).
    { apply fresh_keys. split; [apply not_elem_of_empty|].
      apply list_elem_of_fmap. exists peer. split; [reflexivity|].
      apply elem_of_allLinks. eauto. }
    apply list_elem_of_fmap in Hk as (n & Hip & Hn).
    exists n. split; [assumption|]. split; [congruence|].
    destruct (fresh_shape _ _ _ _ Hn) as [_ ->].
    change (target (edgeOf vsi peer)) with (peerNodeId (peerAddress peer)).
    congruence.
  - intros H. simpl. now rewrite H.
  - rewrite synthesize_edges. apply length_allEdges.
  - intros c Hc. unfold effectConsole. rewrite Hc. reflexivity.
Qed.

Lemma no_link_is_skipped_witness :
  edgeOf addresslessRecord addresslessLink
    ∈ newEdges (synthesize [blankLinkRecord; addresslessRecord])
  /\ target (edgeOf blankLinkRecord blankLink) = "peer-"
  /\ effectConsole blankLinkComponent
     = [ "Processing data based on filters: Name='', State=''";
         "Filtered down to 2 VSIs.";
         "Generated 4 nodes and 2 edges for ReactFlow." ].
Proof.
  destruct (no_link_is_skipped [blankLinkRecord; addresslessRecord]
              addresslessRecord addresslessLink) as (H1 & _ & _ & _ & _).
  { apply list_elem_of_further, list_elem_of_here. }
  { apply list_elem_of_here. }
  destruct (no_link_is_skipped [blankLinkRecord; addresslessRecord]
              blankLinkRecord blankLink) as (_ & _ & H3 & _ & H5).
  { apply list_elem_of_here. }
  { apply list_elem_of_here. }
  split; [exact H1|]. split; [apply H3; reflexivity|].
  apply (H5 blankLinkComponent). reflexivity.
Defined.

(** ** The worked example (C3) *)

(** C3. On the two example records with both filters empty the effect
    completes and publishes three nodes, with ids vsi-1, vsi-2 and
    peer-10.0.0.1 (pushed in the order vsi-1, peer-10.0.0.1, vsi-2), and
    two edges: vsi-1 to peer-10.0.0.1 with the up flag set, and vsi-2 to
    peer-10.0.0.1 with the up flag clear. *)
Theorem example_graph :
  match processData exampleComponent with
  | Ok c =>
      length (nodes c) = 3%nat
      /\ map node_id (nodes c) = ["vsi-1"; "peer-10.0.0.1"; "vsi-2"]
      /\ map node_id (nodes c) ≡ₚ ["vsi-1"; "vsi-2"; "peer-10.0.0.1"]
      /\ length (edges c) = 2%nat
      /\ map (fun e => (source e, target e, animated e)) (edges c)
         = [("vsi-1", "peer-10.0.0.1", true); ("vsi-2", "peer-10.0.0.1", false)]
  | TypeError => False
  end.
Proof.
  vm_compute. repeat split. apply perm_skip, perm_swap.
Qed.

(** ** The filter predicates (C5, C6, C7) *)

Lemma stateMatch_present (fs s : string) (vsi : Vsi) :
  fs <> "" -> vsi_state vsi = Some s ->
  stateMatch fs vsi
  = Ok (String.eqb (replace_first "*" (toLowerCase s)) (toLowerCase fs)).
Proof.
  intros Hfs Hs. unfold stateMatch.
  apply truthy_true in Hfs. rewrite Hfs, Hs. reflexivity.
Qed.

Lemma nameMatch_present (fn n : string) (vsi : Vsi) :
  fn <> "" -> vsi_name vsi = Some n ->
  nameMatch fn vsi = Ok (includes (toLowerCase n) (toLowerCase fn)).
Proof.
  intros Hfn Hn. unfold nameMatch.
  apply truthy_true in Hfn. rewrite Hfn, Hn. reflexivity.
Qed.

Lemma Ok_inj {A : Type} (a b : A) : Ok a = Ok b <-> a = b.
Proof. split; [now intros [= ->] | now intros ->]. Qed.

(** C5 as stated fails: a marker in front of the state is removed too, so
    the state "*up" passes the filter "up" although stripping a trailing
    marker leaves it unchanged. *)
Lemma leading_marker_also_stripped :
  ~ (stateMatch "up" (stateRecord (Some "*up")) = Ok true
     <-> specNormalize "*up" = toLowerCase "up").
Proof.
  intros [H _]. specialize (H eq_refl). vm_compute in H. discriminate.
Qed.

(** C5, amended. For every record and every non-empty state filter, the
    record passes exactly when it has a state whose lower-cased form with
    the first "*" removed, wherever it stands, equals the lower-cased
    filter; the comparison is on whole strings. When the state has no "*"
    except possibly as its last character this is the state with its
    trailing marker stripped. The state "up*" passes the filter "up". *)
Theorem state_filter_strips_first_marker (filterState : string) (vsi : Vsi) :
  filterState <> "" ->
  (stateMatch filterState vsi = Ok true
   <-> exists state,
         vsi_state vsi = Some state
         /\ replace_first "*" (toLowerCase state) = toLowerCase filterState)
  /\ (forall state pre suf,
        vsi_state vsi = Some state ->
        toLowerCase state = pre +:+ String "*" suf -> ~ charIn "*" pre ->
        (stateMatch filterState vsi = Ok true
         <-> pre +:+ suf = toLowerCase filterState))
  /\ (forall state body,
        vsi_state vsi = Some state ->
        ~ charIn "*" body ->
        toLowerCase state = body \/ toLowerCase state = body +:+ "*" ->
        (stateMatch filterState vsi = Ok true
         <-> specNormalize state = toLowerCase filterState))
  /\ stateMatch "up" (stateRecord (Some "up*")) = Ok true.
Proof.
  intros Hfs.
  assert (Hiff : forall state, vsi_state vsi = Some state ->
                 (stateMatch filterState vsi = Ok true
                  <-> replace_first "*" (toLowerCase state)
                      = toLowerCase filterState)).
  { intros state Hs. rewrite (stateMatch_present _ _ _ Hfs Hs), Ok_inj.
    apply String.eqb_eq. }
  split; [|split; [|split; [|reflexivity]]].
  - destruct (vsi_state vsi) as [state|] eqn:Hs.
    + rewrite (Hiff state eq_refl). split; [eauto|].
      now intros (s' & [= <-] & H).
    + unfold stateMatch. apply truthy_true in Hfs. rewrite Hfs, Hs.
      split; [discriminate|]. now intros (s' & [=] & _).
  - intros state pre suf Hs E Hpre. rewrite (Hiff state Hs), E.
    now rewrite replace_first_present.
  - intros state body Hs Hbody Hshape. rewrite (Hiff state Hs).
    unfold specNormalize.
    destruct (replace_first_trailing "*" body Hbody) as [E1 E2].
    destruct Hshape as [->| ->]; [now rewrite E2 | now rewrite E1].
Qed.

Lemma state_filter_strips_first_marker_witness :
  (stateMatch "Up" (stateRecord (Some "UP*")) = Ok true
   <-> specNormalize "UP*" = toLowerCase "Up")
  /\ stateMatch "up" (stateRecord (Some "U*P")) = Ok true.
Proof.
  destruct (state_filter_strips_first_marker "Up" (stateRecord (Some "UP*")))
    as (_ & _ & Htrail & _); [discriminate|].
  destruct (state_filter_strips_first_marker "up" (stateRecord (Some "U*P")))
    as (Hfirst & _); [discriminate|].
  split.
  - apply (Htrail "UP*" "up").
    + reflexivity.
    + simpl. intros [H1|[H1|[]]]; discriminate.
    + right. reflexivity.
  - apply Hfirst. exists "U*P". split; reflexivity.
Defined.

Lemma filterCallback_true (fn fs : string) (vsi : Vsi) :
  filterCallback fn fs vsi = Ok true
  <-> nameMatch fn vsi = Ok true /\ stateMatch fs vsi = Ok true.
Proof.
  unfold filterCallback, mbind, result_bind.
  destruct (nameMatch fn vsi) as [[|]|], (stateMatch fs vsi) as [[|]|];
    simpl; split; try tauto; try discriminate; intros [? ?]; discriminate.
Qed.

Lemma filterCallback_total (fn fs : string) (vsi : Vsi) :
  is_Some (vsi_name vsi) -> is_Some (vsi_state vsi) ->
  exists b, filterCallback fn fs vsi = Ok b.
Proof.
  intros [n Hn] [s Hs].
  unfold filterCallback, nameMatch, stateMatch, mbind, result_bind.
  rewrite Hn, Hs. destruct (truthy fn), (truthy fs); simpl; eauto.
Qed.

Lemma filteredVsis_total (vsis : list Vsi) (fn fs : string) :
  (forall v, v ∈ vsis -> is_Some (vsi_name v) /\ is_Some (vsi_state v)) ->
  exists l, filteredVsis vsis fn fs = Ok l.
Proof.
  intros H. unfold filteredVsis.
  exists (List.filter
            (fun v => match filterCallback fn fs v with
                      | Ok b => b
                      | TypeError => false
                      end) vsis).
  apply filter_total. intros v Hv. apply list_elem_of_In in Hv.
  destruct (H v Hv) as [Hn Hs].
  destruct (filterCallback_total fn fs v Hn Hs) as [b ->]. reflexivity.
Qed.

Lemma filteredVsis_inv (vsis l : list Vsi) (fn fs : string) :
  filteredVsis vsis fn fs = Ok l ->
  exists p, l = List.filter p vsis
            /\ forall v, v ∈ vsis ->
                 (p v = true
                  <-> nameMatch fn v = Ok true /\ stateMatch fs v = Ok true).
Proof.
  intros H. apply filter_Ok_inv in H as (p & Hp & ->).
  exists p. split; [reflexivity|]. intros v Hv.
  rewrite <- filterCallback_true, (Hp v) by (now apply list_elem_of_In).
  apply symmetry, Ok_inj.
Qed.


(** *** The filter under any case folding *)

Section FoldingFacts.

Variable fold : string -> string.






End FoldingFacts.





(** C7 as stated fails: a record without a name makes the filter throw
    under a non-empty name filter, instead of being left out. *)
Lemma missing_name_raises :
  ~ exists l, filteredVsis [nameRecord None] "a" "" = Ok l.
Proof. intros [l H]. vm_compute in H. discriminate. Qed.

(** C7, amended. A record whose name is the empty string is rejected by
    every non-empty name filter, and one whose state is the empty string by
    every non-empty state filter. When every record of the dataset carries
    a name and a state the filter returns, and such a record is not in its
    result. *)
Theorem blank_fields_never_match (filterName filterState : string) (vsi : Vsi) :
  (filterName <> "" -> vsi_name vsi = Some "" ->
   nameMatch filterName vsi = Ok false)
  /\ (filterState <> "" -> vsi_state vsi = Some "" ->
      stateMatch filterState vsi = Ok false)
  /\ (forall allVsis,
        (forall v, v ∈ allVsis -> is_Some (vsi_name v) /\ is_Some (vsi_state v)) ->
        exists l,
          filteredVsis allVsis filterName filterState = Ok l
          /\ ((filterName <> "" /\ vsi_name vsi = Some "")
              \/ (filterState <> "" /\ vsi_state vsi = Some "") ->
              vsi ∉ l)).
Proof.
  assert (Hn : filterName <> "" -> vsi_name vsi = Some "" ->
               nameMatch filterName vsi = Ok false).
  { intros Hf Hn. rewrite (nameMatch_present _ _ _ Hf Hn).
    destruct filterName; [congruence | reflexivity]. }
  assert (Hs : filterState <> "" -> vsi_state vsi = Some "" ->
               stateMatch filterState vsi = Ok false).
  { intros Hf Hs. rewrite (stateMatch_present _ _ _ Hf Hs).
    destruct filterState; [congruence | reflexivity]. }
  split; [exact Hn|]. split; [exact Hs|].
  intros vsis Hall. destruct (filteredVsis_total vsis filterName filterState Hall)
    as [l Hl].
  exists l. split; [exact Hl|]. intros Hblank Hin.
  destruct (filteredVsis_inv _ _ _ _ Hl) as (p & -> & Hp).
  apply list_elem_of_In, List.filter_In in Hin as [Hin Hkeep].
  apply list_elem_of_In in Hin. apply (Hp vsi Hin) in Hkeep as [Hk1 Hk2].
  destruct Hblank as [[Hf Hb]|[Hf Hb]].
  - rewrite (Hn Hf Hb) in Hk1. discriminate.
  - rewrite (Hs Hf Hb) in Hk2. discriminate.
Qed.

Lemma blank_fields_never_match_witness :
  nameMatch "a" (nameRecord (Some "")) = Ok false
  /\ stateMatch "up" (stateRecord (Some "")) = Ok false
  /\ exists l, filteredVsis [nameRecord (Some ""); nameRecord (Some "abc")] "a" ""
               = Ok l
               /\ nameRecord (Some "") ∉ l.
Proof.
  split; [|split].
  - apply (blank_fields_never_match "a" "" (nameRecord (Some "")));
      [discriminate | reflexivity].
  - apply (blank_fields_never_match "" "up" (stateRecord (Some "")));
      [discriminate | reflexivity].
  - destruct (blank_fields_never_match "a" "" (nameRecord (Some "")))
      as (_ & _ & H).
    destruct (H [nameRecord (Some ""); nameRecord (Some "abc")]) as (l & Hl & Hout).
    + intros v Hv. apply elem_of_cons in Hv as [->|Hv]; [now split|].
      apply elem_of_cons in Hv as [->|Hv]; [now split|].
      now apply elem_of_nil in Hv.
    + exists l. split; [exact Hl|]. apply Hout. left. split; [discriminate|reflexivity].
Defined.

(** ** Determinism of a pass (C8) *)

(** C8. The graph a pass publishes is a function of the filtered records
    alone: two runs of the effect whose filters yield the same record list
    both complete and publish identical node lists and identical edge
    lists, ids and positions included, whatever graph each component
    showed before and whatever dataset and filter values produced the
    list. *)
Theorem synthesis_deterministic (c1 c2 : Component) (vsisToRender : list Vsi) :
  filteredVsis (allVsis c1) (filterName c1) (filterState c1) = Ok vsisToRender ->
  filteredVsis (allVsis c2) (filterName c2) (filterState c2) = Ok vsisToRender ->
  exists r1 r2,
    processData c1 = Ok r1 /\ processData c2 = Ok r2
    /\ nodes r1 = nodes r2 /\ edges r1 = edges r2
    /\ nodes r1 = newNodes (synthesize vsisToRender)
    /\ edges r1 = newEdges (synthesize vsisToRender).
Proof.
  intros H1 H2. unfold processData, mbind, result_bind.
  rewrite H1, H2. simpl. eexists _, _. repeat split.
Qed.

Lemma synthesis_deterministic_witness :
  exists r1 r2,
    processData exampleComponent = Ok r1 /\ processData staleComponent = Ok r2
    /\ nodes r1 = nodes r2 /\ edges r1 = edges r2.
Proof.
  destruct (synthesis_deterministic exampleComponent staleComponent exampleRecords)
    as (r1 & r2 & H1 & H2 & Hn & He & _); [reflexivity | reflexivity |].
  exists r1, r2. auto.
Defined.

(** ** Further properties of the synthesis loops *)

Section SynthMore.

Implicit Types (st : SynthState) (vsi : Vsi) (peer : VsiPeerInfo).

Lemma nodes_split (ns : list Node) : ns ≡ₚ vsiNodes ns ++ peerNodes ns.
Proof.
  induction ns as [|n ns IH]; [reflexivity|].
  unfold vsiNodes, peerNodes in *. simpl.
  unfold isVsiNode, isPeerNode. destruct (node_type n); simpl.
  - now apply perm_skip.
  - rewrite <- Permutation_middle. now apply perm_skip.
Qed.

Lemma elem_of_vsiNodes (ns : list Node) (n : Node) :
  n ∈ vsiNodes ns -> n ∈ ns.
Proof.
  unfold vsiNodes. rewrite !list_elem_of_In, List.filter_In. tauto.
Qed.

Lemma elem_of_peerNodes (ns : list Node) (n : Node) :
  n ∈ peerNodes ns -> n ∈ ns.
Proof.
  unfold peerNodes. rewrite !list_elem_of_In, List.filter_In. tauto.
Qed.

(** The node an address resolves to is among the peer nodes. *)
Lemma peer_node_for_link (vsis : list Vsi) vsi peer :
  vsi ∈ vsis -> peer ∈ peersOf vsi ->
  exists n, n ∈ peerNodes (newNodes (synthesize vsis))
            /\ node_ip n = peerAddress peer
            /\ node_id n = peerNodeId (peerAddress peer).
Proof.
  intros Hv Hp. rewrite synthesize_peerNodes.
  assert (Hk : peerAddress peer
               ∈ map node_ip (freshPeerNodes 100 ∅ (allLinks vsis))).
  { apply fresh_keys. split; [apply not_elem_of_empty|].
    apply list_elem_of_fmap. exists peer. split; [reflexivity|].
    apply elem_of_allLinks. eauto. }
  apply list_elem_of_fmap in Hk as (n & Hip & Hn).
  exists n. split; [assumption|]. split; [congruence|].
  destruct (fresh_shape _ _ _ _ Hn) as [_ ->]. congruence.
Qed.

Lemma vsi_node_for_record (vsis : list Vsi) vsi :
  vsi ∈ vsis ->
  exists i, vsiNodeOf i vsi ∈ vsiNodes (newNodes (synthesize vsis)).
Proof.
  intros Hv. rewrite synthesize_vsiNodes.
  apply list_elem_of_lookup in Hv as [i Hi]. exists i.
  apply list_elem_of_lookup. exists i.
  now rewrite list_lookup_imap, Hi.
Qed.

(** *** The loops only append *)

Lemma peerBody_nodes_prefix vsi st peer :
  newNodes st `prefix_of` newNodes (peerBody vsi st peer).
Proof.
  unfold peerBody. destruct (peerNodeMap st !! peerAddress peer); simpl.
  - reflexivity.
  - now apply prefix_app_r.
Qed.

Lemma forEachPeer_nodes_prefix vsi peers st :
  newNodes st `prefix_of` newNodes (forEachPeer vsi peers st).
Proof.
  unfold forEachPeer. revert st.
  induction peers as [|p ps IH]; intros st; simpl; [reflexivity|].
  etransitivity; [apply peerBody_nodes_prefix | apply IH].
Qed.

Lemma forEachVsi_nodes_prefix i vsis st :
  newNodes st `prefix_of` newNodes (forEachVsi i vsis st).
Proof.
  revert i st. induction vsis as [|v vs IH]; intros i st; simpl; [reflexivity|].
  etransitivity; [|apply IH].
  rewrite vsiBody_peersOf.
  etransitivity; [|apply forEachPeer_nodes_prefix]. simpl.
  now apply prefix_app_r.
Qed.

Lemma forEachVsi_app i (a b : list Vsi) st :
  forEachVsi i (a ++ b) st = forEachVsi (i + length a) b (forEachVsi i a st).
Proof.
  revert i st. induction a as [|v a IH]; intros i st; simpl.
  - now rewrite Nat.add_0_r.
  - rewrite IH. f_equal. lia.
Qed.

(** *** Map, offset and array stay in step *)

Lemma Coherent_initial : Coherent initialState.
Proof.
  split; simpl.
  - intros k n. rewrite lookup_empty, elem_of_nil. split; [discriminate|tauto].
  - apply map_size_empty.
  - reflexivity.
Qed.

Lemma Coherent_peerBody vsi st peer :
  Coherent st -> Coherent (peerBody vsi st peer).
Proof.
  intros [Hl Hs Hx]. unfold peerBody.
  destruct (peerNodeMap st !! peerAddress peer) as [m|] eqn:Hk.
  - split; simpl; assumption.
  - split; simpl.
    + intros k n. rewrite peerNodes_app. simpl.
      rewrite elem_of_app, list_elem_of_singleton.
      destruct (decide (peerAddress peer = k)) as [<-|Hne].
      * rewrite lookup_insert_eq. split.
        -- intros [= <-]. split; [now right | reflexivity].
        -- intros [[Hn| ->] Hip]; [|reflexivity].
           assert (peerNodeMap st !! peerAddress peer = Some n) as E
             by (apply Hl; split; assumption).
           congruence.
      * rewrite lookup_insert_ne by assumption. rewrite Hl. split.
        -- intros [Hn Hip]. split; [now left | assumption].
        -- intros [[Hn| ->] Hip]; [split; assumption|].
           exfalso. apply Hne. exact Hip.
    + rewrite map_size_insert_None by assumption.
      rewrite peerNodes_app, length_app, Hs. simpl. lia.
    + rewrite peerNodes_app, length_app, Hx. simpl. lia.
Qed.

Lemma Coherent_forEachPeer vsi peers st :
  Coherent st -> Coherent (forEachPeer vsi peers st).
Proof.
  unfold forEachPeer. revert st.
  induction peers as [|p ps IH]; intros st H; simpl; [assumption|].
  apply IH. now apply Coherent_peerBody.
Qed.

Lemma Coherent_forEachVsi i vsis st :
  Coherent st -> Coherent (forEachVsi i vsis st).
Proof.
  revert i st. induction vsis as [|v vs IH]; intros i st H; simpl; [assumption|].
  apply IH. rewrite vsiBody_peersOf. apply Coherent_forEachPeer.
  destruct H as [Hl Hs Hx]. split; simpl; rewrite peerNodes_app; simpl;
    rewrite app_nil_r; assumption.
Qed.

Lemma Coherent_synthesize (vsis : list Vsi) : Coherent (synthesize vsis).
Proof. apply Coherent_forEachVsi, Coherent_initial. Qed.

(** *** Offsets of the peer row *)

Lemma fresh_x_lower x seen links n :
  n ∈ freshPeerNodes x seen links -> x <= node_x n /\ node_y n = peerYPos.
Proof.
  revert x seen. induction links as [|p ps IH]; intros x seen Hn; simpl in Hn.
  - now apply elem_of_nil in Hn.
  - destruct (decide (peerAddress p ∈ seen)) as [Hin|Hout]; [now apply IH in Hn|].
    apply elem_of_cons in Hn as [->|Hn]; [simpl; split; [lia|reflexivity]|].
    apply IH in Hn. lia.
Qed.

Lemma fresh_x_lookup x seen links (j : nat) n :
  freshPeerNodes x seen links !! j = Some n ->
  node_x n = x + 200 * Z.of_nat j.
Proof.
  revert x seen j. induction links as [|p ps IH]; intros x seen j Hn; simpl in Hn.
  - discriminate.
  - destruct (decide (peerAddress p ∈ seen)) as [Hin|Hout]; [now apply IH in Hn|].
    destruct j as [|j]; simpl in Hn.
    + injection Hn as <-. simpl. lia.
    + apply IH in Hn. lia.
Qed.

Lemma fresh_x_NoDup x seen links :
  NoDup (map node_x (freshPeerNodes x seen links)).
Proof.
  revert x seen. induction links as [|p ps IH]; intros x seen; simpl.
  - constructor.
  - destruct (decide (peerAddress p ∈ seen)) as [Hin|Hout]; [apply IH|]. simpl.
    constructor; [|apply IH].
    intros Hmem. apply list_elem_of_fmap in Hmem as (n & Hx & Hn).
    apply fresh_x_lower in Hn. lia.
Qed.

End SynthMore.

(** ** The graph as a whole *)

Lemma isPeerNode_fresh x seen links n :
  n ∈ freshPeerNodes x seen links -> node_type n = peerNode.
Proof.
  intros Hn. apply fresh_first_link in Hn as (_ & p & _ & y & _ & _ & _ & ->).
  reflexivity.
Qed.

(** X1. No edge of a pass dangles: its source is the id of a record node
    in the published node list and its target the id of a peer node in
    that list. *)
Theorem edges_join_published_nodes (vsisToRender : list Vsi) (e : Edge) :
  e ∈ newEdges (synthesize vsisToRender) ->
  (exists n, n ∈ newNodes (synthesize vsisToRender)
             /\ node_type n = vsiNode /\ node_id n = source e)
  /\ (exists m, m ∈ newNodes (synthesize vsisToRender)
                /\ node_type m = peerNode /\ node_id m = target e).
Proof.
  rewrite synthesize_edges. intros He.
  apply elem_of_allEdges in He as (vsi & p & Hv & Hp & ->). split.
  - destruct (vsi_node_for_record _ _ Hv) as [i Hi].
    exists (vsiNodeOf i vsi). split; [now apply elem_of_vsiNodes|].
    split; reflexivity.
  - destruct (peer_node_for_link _ _ _ Hv Hp) as (m & Hm & _ & Hid).
    exists m. split; [now apply elem_of_peerNodes|]. split; [|exact Hid].
    rewrite synthesize_peerNodes in Hm. now apply isPeerNode_fresh in Hm.
Qed.

Lemma edges_join_published_nodes_witness :
  exists m, m ∈ newNodes (synthesize exampleRecords)
            /\ node_type m = peerNode /\ node_id m = "peer-10.0.0.1".
Proof.
  apply (edges_join_published_nodes exampleRecords
           (edgeOf (mkVsi 2 (Some "VSI-B") (Some "down") None)
                   (mkPeer 11 (Some "10.0.0.1") None (Some "down") None))).
  vm_compute. apply list_elem_of_further, list_elem_of_here.
Defined.

Lemma vsi_positions_NoDup (vsis : list Vsi) :
  NoDup (map node_pos (imap vsiNodeOf vsis)).
Proof.
  apply NoDup_alt. intros i j pos Hi Hj.
  change (map node_pos (imap vsiNodeOf vsis))
    with (node_pos <$> imap vsiNodeOf vsis) in Hi, Hj.
  rewrite list_lookup_fmap, list_lookup_imap in Hi, Hj.
  destruct (vsis !! i) as [v|]; [|discriminate].
  destruct (vsis !! j) as [w|]; [|discriminate].
  simpl in Hi, Hj. injection Hi as <-. injection Hj as Hj. lia.
Qed.

(** X2. The layout is a two-row grid: the i-th record node sits at
    (150 + 250 i, 100) and the j-th peer node, in order of creation, at
    (100 + 200 j, 400). No two nodes of a pass share a position. *)
Theorem nodes_on_two_rows (vsisToRender : list Vsi) :
  let ns := newNodes (synthesize vsisToRender) in
  (forall (i : nat) n, vsiNodes ns !! i = Some n ->
     node_pos n = (150 + 250 * Z.of_nat i, 100))
  /\ (forall (j : nat) n, peerNodes ns !! j = Some n ->
        node_pos n = (100 + 200 * Z.of_nat j, 400))
  /\ NoDup (map node_pos ns).
Proof.
  cbv zeta. split; [|split].
  - intros i n. rewrite synthesize_vsiNodes, list_lookup_imap.
    destruct (vsisToRender !! i) as [v|]; [|discriminate].
    intros [= <-]. unfold node_pos. simpl. f_equal. lia.
  - intros j n. rewrite synthesize_peerNodes. intros Hn.
    pose proof (fresh_x_lookup _ _ _ _ _ Hn) as Hx.
    apply list_elem_of_lookup_2, fresh_x_lower in Hn as [_ Hy].
    unfold node_pos. now rewrite Hx, Hy.
  - rewrite (nodes_split (newNodes (synthesize vsisToRender))).
    rewrite map_app. apply NoDup_app. split; [|split].
    + rewrite synthesize_vsiNodes. apply vsi_positions_NoDup.
    + intros pos Hv Hp. rewrite synthesize_vsiNodes in Hv.
      rewrite synthesize_peerNodes in Hp.
      apply list_elem_of_fmap in Hv as (n & -> & Hn).
      apply list_elem_of_fmap in Hp as (m & Hpos & Hm).
      apply list_elem_of_lookup in Hn as [i Hi].
      rewrite list_lookup_imap in Hi.
      destruct (vsisToRender !! i) as [v|]; [|discriminate].
      injection Hi as <-. apply fresh_x_lower in Hm as [_ Hy].
      unfold node_pos in Hpos. simpl in Hpos. rewrite Hy in Hpos.
      discriminate.
    + rewrite synthesize_peerNodes.
      apply (NoDup_fmap_1 fst).
      change (fst <$> map node_pos (freshPeerNodes 100 ∅ (allLinks vsisToRender)))
        with (map fst (map node_pos (freshPeerNodes 100 ∅ (allLinks vsisToRender)))).
      rewrite map_map. apply fresh_x_NoDup.
Qed.

Lemma nodes_on_two_rows_witness :
  node_pos (vsiNodeOf 1 (mkVsi 2 (Some "VSI-B") (Some "down")
      (Some [mkPeer 11 (Some "10.0.0.1") None (Some "down") None])))
  = (400, 100).
Proof.
  destruct (nodes_on_two_rows exampleRecords) as (H & _ & _).
  apply (H 1%nat). reflexivity.
Defined.

Lemma length_fresh_le x seen links :
  (length (freshPeerNodes x seen links) <= length links)%nat.
Proof.
  revert x seen. induction links as [|p ps IH]; intros x seen; simpl; [lia|].
  destruct (decide (peerAddress p ∈ seen)) as [Hin|Hout]; simpl.
  - specialize (IH x seen). lia.
  - specialize (IH (x + 200) ({[peerAddress p]} ∪ seen)). lia.
Qed.

(** X5. The node counter of a pass: the published node list has one
    entry per filtered record plus one per distinct peer address among
    their links, hence at most records plus links. *)
Theorem node_count (vsisToRender : list Vsi) :
  let ns := newNodes (synthesize vsisToRender) in
  length ns
  = (length vsisToRender
     + length (remove_dups (map peerAddress (allLinks vsisToRender))))%nat
  /\ (length ns <= length vsisToRender + length (allLinks vsisToRender))%nat.
Proof.
  cbv zeta.
  rewrite (Permutation_length (nodes_split (newNodes (synthesize vsisToRender)))).
  rewrite length_app, synthesize_vsiNodes, synthesize_peerNodes, length_imap.
  split.
  - f_equal.
    rewrite <- (length_map node_ip).
    apply Permutation_length, NoDup_Permutation.
    + apply fresh_keys_NoDup.
    + apply NoDup_remove_dups.
    + intros k. rewrite fresh_keys, elem_of_remove_dups. split; [tauto|].
      intros H. split; [apply not_elem_of_empty | exact H].
  - pose proof (length_fresh_le 100 ∅ (allLinks vsisToRender)). lia.
Qed.

(** X6. When a pass ends, [peerNodeMap] and the node array agree: the map
    sends an address to a node exactly when that node is a published peer
    node holding the address, an address is unmapped exactly when no link
    carries it, and [peerXPos] has advanced by 200 per map entry. *)
Theorem peerNodeMap_mirrors_nodes (vsisToRender : list Vsi)
    (k : option string) :
  let out := synthesize vsisToRender in
  (forall n, peerNodeMap out !! k = Some n
             <-> n ∈ peerNodes (newNodes out) /\ node_ip n = k)
  /\ (peerNodeMap out !! k = None
      <-> k ∉ map peerAddress (allLinks vsisToRender))
  /\ peerXPos out = 100 + 200 * Z.of_nat (size (peerNodeMap out)).
Proof.
  cbv zeta. destruct (Coherent_synthesize vsisToRender) as [Hl Hs Hx].
  split; [intros n; apply Hl|]. split; [|now rewrite Hs].
  assert (Hkeys : k ∈ map peerAddress (allLinks vsisToRender)
                  <-> exists n, peerNodeMap (synthesize vsisToRender) !! k = Some n).
  { transitivity (k ∈ map node_ip (peerNodes (newNodes (synthesize vsisToRender)))).
    - rewrite synthesize_peerNodes, fresh_keys. split; [|tauto].
      intros H. split; [apply not_elem_of_empty | exact H].
    - split.
      + intros Hin. apply list_elem_of_fmap in Hin as (n & -> & Hn).
        exists n. apply Hl. auto.
      + intros [n Hn]. apply Hl in Hn as [Hn <-].
        apply list_elem_of_fmap. eauto. }
  rewrite Hkeys. destruct (peerNodeMap (synthesize vsisToRender) !! k) as [n|].
  - split; [discriminate|]. intros H. exfalso. apply H. eauto.
  - split; [|reflexivity]. intros _ [n Hn]. discriminate.
Qed.

Lemma peerNodeMap_mirrors_nodes_witness :
  peerNodeMap (synthesize exampleRecords) !! Some "10.0.0.2" = None.
Proof.
  apply (peerNodeMap_mirrors_nodes exampleRecords (Some "10.0.0.2")).
  vm_compute. intros H.
  apply elem_of_cons in H as [H|H]; [discriminate|].
  apply elem_of_cons in H as [H|H]; [discriminate|].
  now apply elem_of_nil in H.
Defined.

Lemma allEdges_app (a b : list Vsi) : allEdges (a ++ b) = allEdges a ++ allEdges b.
Proof. unfold allEdges. apply flat_map_app. Qed.

(** X7. Records appended to the input never disturb what earlier records
    produced: the nodes and edges of a pass over [a] are an initial
    segment of those of a pass over [a ++ b]. *)
Theorem earlier_records_unaffected (a b : list Vsi) :
  newNodes (synthesize a) `prefix_of` newNodes (synthesize (a ++ b))
  /\ newEdges (synthesize a) `prefix_of` newEdges (synthesize (a ++ b)).
Proof.
  split.
  - unfold synthesize. rewrite forEachVsi_app. apply forEachVsi_nodes_prefix.
  - rewrite !synthesize_edges, allEdges_app. now apply prefix_app_r.
Qed.

(** ** Identifiers *)

Section Identifiers.

Local Arguments String.append !_ _ /.

Lemma string_app_assoc (a b c : string) : (a +:+ b) +:+ c = a +:+ (b +:+ c).
Proof. induction a as [|x a IH]; simpl; [reflexivity | now rewrite IH]. Qed.

Lemma charIn_app (c : ascii) (a b : string) :
  charIn c (a +:+ b) <-> charIn c a \/ charIn c b.
Proof. induction a as [|x a IH]; simpl; [tauto | rewrite IH; tauto]. Qed.

(** Two strings cut at their first dash agree piecewise. *)
Lemma split_at_first_dash (d1 d2 r1 r2 : string) :
  ~ charIn "-" d1 -> ~ charIn "-" d2 ->
  d1 +:+ String "-" r1 = d2 +:+ String "-" r2 -> d1 = d2 /\ r1 = r2.
Proof.
  revert d2. induction d1 as [|x d1 IH]; intros [|y d2] H1 H2 E; simpl in *.
  - now injection E.
  - injection E as <- _. tauto.
  - injection E as -> _. tauto.
  - injection E as -> E. destruct (IH d2) as [-> ->]; tauto.
Qed.

Lemma pretty_N_char_no_dash (x : N) : pretty_N_char x <> "-"%char.
Proof. unfold pretty_N_char. repeat case_match; discriminate. Qed.

(** The digits written for [x] are put in front of the accumulator, they
    contain no dash, and there is at least one when [x] is positive. *)
Lemma pretty_N_go_shape (x : N) (s : string) :
  exists pre, pretty_N_go x s = pre +:+ s
              /\ ~ charIn "-" pre /\ ((0 < x)%N -> pre <> "").
Proof.
  revert s. induction (N.lt_wf_0 x) as [x _ IH]; intros s.
  destruct (decide (x = 0%N)) as [->|Hx].
  - exists "". rewrite pretty_N_go_0. split; [reflexivity|]. split; [tauto|lia].
  - assert (Hpos : (0 < x)%N) by lia.
    rewrite pretty_N_go_step by assumption.
    destruct (IH (x `div` 10)%N (N.div_lt x 10 Hpos eq_refl)
                 (String (pretty_N_char (x `mod` 10)) s)) as (pre & -> & Hd & _).
    exists (pre +:+ String (pretty_N_char (x `mod` 10)) "").
    split; [now rewrite string_app_assoc|]. split.
    + rewrite charIn_app. simpl.
      pose proof (pretty_N_char_no_dash (x `mod` 10)). tauto.
    + intros _. destruct pre; discriminate.
Qed.

Lemma pretty_N_shape (x : N) :
  ~ charIn "-" (pretty x) /\ pretty x <> "".
Proof.
  unfold pretty, pretty_N. case_decide as Hx.
  - split; [|discriminate]. simpl. intros [H|[]]. discriminate.
  - destruct (pretty_N_go_shape x "") as (pre & E & Hd & Hne).
    assert (pre +:+ "" = pre) as Epre
      by (clear; induction pre as [|c p IHp]; simpl; [|rewrite IHp]; reflexivity).
    rewrite E, Epre. split; [assumption|]. apply Hne. lia.
Qed.

(** The text of an integer is an optional leading dash and a non-empty
    dash-free rest. *)
Lemma pretty_Z_shape (z : Z) :
  (exists d, pretty z = d /\ ~ charIn "-" d /\ d <> "" /\ 0 <= z)
  \/ (exists d, pretty z = String "-" d /\ ~ charIn "-" d /\ d <> "" /\ z < 0).
Proof.
  destruct z as [|p|p]; unfold pretty, pretty_Z.
  - left. exists "0". repeat split; try discriminate; try lia.
    simpl. intros [H|[]]. discriminate.
  - left. exists (pretty (N.pos p)).
    destruct (pretty_N_shape (N.pos p)). repeat split; auto; lia.
  - right. exists (pretty (N.pos p)).
    destruct (pretty_N_shape (N.pos p)). repeat split; auto; lia.
Qed.

(** A pair of integers can be read back from "<a>-<b>". *)
Lemma dashed_pair_inj (a b a' b' : Z) :
  pretty a +:+ "-" +:+ pretty b = pretty a' +:+ "-" +:+ pretty b' ->
  a = a' /\ b = b'.
Proof.
  intros E.
  assert (Hab : pretty a = pretty a' /\ pretty b = pretty b').
  { destruct (pretty_Z_shape a) as [(d & Ed & Hd & Hne & _)|(d & Ed & Hd & Hne & _)],
             (pretty_Z_shape a') as [(d' & Ed' & Hd' & Hne' & _)|(d' & Ed' & Hd' & Hne' & _)];
      rewrite Ed, Ed' in E |- *.
    - now apply split_at_first_dash in E.
    - destruct d as [|c d]; [congruence|]. simpl in E. injection E as -> _.
      simpl in Hd. tauto.
    - destruct d' as [|c d']; [congruence|]. simpl in E. injection E as <- _.
      simpl in Hd'. tauto.
    - simpl in E. injection E as E.
      apply split_at_first_dash in E as [-> ->]; auto. }
  destruct Hab as [Ha Hb].
  split; now apply (inj pretty).
Qed.

End Identifiers.

Lemma node_ids_vsi (vsis : list Vsi) :
  map node_id (imap vsiNodeOf vsis) = map vsiNodeId vsis.
Proof. now apply map_imap_const. Qed.

Lemma NoDup_vsiNodeIds (vsis : list Vsi) :
  NoDup (map vsiNodeId vsis) <-> NoDup (map vsi_id vsis).
Proof.
  assert (E : map vsiNodeId vsis
              = (fun z : Z => "vsi-" +:+ pretty z) <$> map vsi_id vsis).
  { change (map vsi_id vsis) with (vsi_id <$> vsis).
    now rewrite <- list_fmap_compose. }
  rewrite E. apply NoDup_fmap.
  intros a b H. apply String.app_inj in H. now apply (inj pretty).
Qed.

(** X3. React Flow node ids: when every link of the filtered records
    carries an address, the node ids of a pass are pairwise distinct
    exactly when the record ids are. Record and peer nodes never collide,
    so a clash can only come from two records with one id. *)
Theorem node_ids_unique (vsisToRender : list Vsi) :
  (forall p, p ∈ allLinks vsisToRender -> is_Some (peerAddress p)) ->
  NoDup (map node_id (newNodes (synthesize vsisToRender)))
  <-> NoDup (map vsi_id vsisToRender).
Proof.
  intros Haddr.
  rewrite (nodes_split (newNodes (synthesize vsisToRender))), map_app.
  rewrite NoDup_app, synthesize_vsiNodes, synthesize_peerNodes.
  rewrite node_ids_vsi, NoDup_vsiNodeIds.
  split; [tauto|]. intros Hids. split; [assumption|]. split.
  - intros s Hv Hp.
    apply list_elem_of_fmap in Hv as (v & -> & _).
    apply list_elem_of_fmap in Hp as (n & E & Hn).
    apply fresh_shape in Hn as [_ Hid]. rewrite Hid in E. discriminate.
  - apply NoDup_fmap_2_strong.
    + intros n m Hn Hm E.
      pose proof (fresh_first_link _ _ _ _ Hn) as (pre & p & suf & y & El & _ & _ & ->).
      pose proof (fresh_first_link _ _ _ _ Hm) as (pre' & q & suf' & y' & El' & _ & _ & ->).
      assert (Hp : p ∈ allLinks vsisToRender)
        by (rewrite El; apply elem_of_app; right; apply list_elem_of_here).
      assert (Hq : q ∈ allLinks vsisToRender)
        by (rewrite El'; apply elem_of_app; right; apply list_elem_of_here).
      destruct (Haddr p Hp) as [a Ha], (Haddr q Hq) as [b Hb].
      simpl in E. rewrite Ha, Hb in E. apply peerNodeId_inj in E. subst b.
      assert (Hkey : node_ip (peerNodeOf y p) = node_ip (peerNodeOf y' q))
        by (change (peerAddress p = peerAddress q); congruence).
      pose proof (fresh_keys_NoDup 100 ∅ (allLinks vsisToRender)) as Hnd.
      apply list_elem_of_lookup in Hn as [i Hi].
      apply list_elem_of_lookup in Hm as [j Hj].
      assert (i = j).
      { apply (proj1 (NoDup_alt _) Hnd i j (node_ip (peerNodeOf y p))).
        - change (map node_ip ?l) with (node_ip <$> l).
          now rewrite list_lookup_fmap, Hi.
        - change (map node_ip ?l) with (node_ip <$> l).
          now rewrite list_lookup_fmap, Hj, Hkey. }
      subst j. congruence.
    + apply (NoDup_fmap_1 node_ip). apply fresh_keys_NoDup.
Qed.

Lemma node_ids_unique_witness :
  NoDup (map node_id (newNodes (synthesize exampleRecords))).
Proof.
  apply (node_ids_unique exampleRecords).
  - intros p Hp. vm_compute in Hp.
    apply elem_of_cons in Hp as [->|Hp]; [now eexists|].
    apply elem_of_cons in Hp as [->|Hp]; [now eexists|].
    now apply elem_of_nil in Hp.
  - vm_compute. constructor; [|constructor; [|constructor]].
    + intros H. apply elem_of_cons in H as [H|H]; [discriminate|].
      now apply elem_of_nil in H.
    + intros H. now apply elem_of_nil in H.
Defined.

Lemma edge_ids_of_keys (vsis : list Vsi) :
  map edge_id (allEdges vsis)
  = map (fun k : Z * Z => "edge-" +:+ pretty k.1 +:+ "-" +:+ pretty k.2)
        (linkKeys vsis).
Proof.
  unfold allEdges, linkKeys. induction vsis as [|v vs IH]; [reflexivity|].
  simpl. rewrite !map_app, IH. f_equal.
  rewrite !map_map. reflexivity.
Qed.

(** X4. React Flow edge ids: the edge ids of a pass are pairwise distinct
    exactly when the (record id, link id) pairs of the filtered links are,
    because the pair can be read back from "edge-<record id>-<link id>". *)
Theorem edge_ids_unique (vsisToRender : list Vsi) :
  NoDup (map edge_id (newEdges (synthesize vsisToRender)))
  <-> NoDup (linkKeys vsisToRender).
Proof.
  rewrite synthesize_edges, edge_ids_of_keys.
  change (map ?f ?l) with (f <$> l). apply NoDup_fmap.
  intros [a b] [a' b'] E. simpl in E. apply String.app_inj in E.
  apply dashed_pair_inj in E as [-> ->]. reflexivity.
Qed.

Lemma edge_ids_unique_witness :
  NoDup (map edge_id (newEdges (synthesize exampleRecords))).
Proof.
  apply (edge_ids_unique exampleRecords). vm_compute.
  constructor; [|constructor; [|constructor]].
  - intros H. apply elem_of_cons in H as [H|H]; [discriminate|].
    now apply elem_of_nil in H.
  - intros H. now apply elem_of_nil in H.
Defined.

(** ** Filtering and the graph *)

Lemma allEdges_sublist (l vsis : list Vsi) :
  sublist l vsis -> sublist (allEdges l) (allEdges vsis).
Proof.
  unfold allEdges. induction 1 as [|v l1 l2 _ IH|v l1 l2 _ IH]; simpl.
  - constructor.
  - now apply sublist_app.
  - now apply sublist_inserts_l.
Qed.

Lemma allLinks_sublist (l vsis : list Vsi) :
  sublist l vsis -> sublist (allLinks l) (allLinks vsis).
Proof.
  unfold allLinks. induction 1 as [|v l1 l2 _ IH|v l1 l2 _ IH]; simpl.
  - constructor.
  - now apply sublist_app.
  - now apply sublist_inserts_l.
Qed.

Lemma filteredVsis_sublist (vsis l : list Vsi) (fn fs : string) :
  filteredVsis vsis fn fs = Ok l -> sublist l vsis.
Proof.
  intros H. apply filter_Ok_inv in H as (p & _ & ->). apply list_filter_sublist.
Qed.

(** X8. Filtering only takes away from the graph: the edges published for
    a filtered dataset are, in order, among the edges of the unfiltered
    one, and so are the ids of its record nodes; each of its peer nodes has
    a peer node with the same id and address in the unfiltered graph. *)
Theorem filtered_graph_within_full (dataset l : list Vsi)
    (nameFilter stateFilter : string) :
  filteredVsis dataset nameFilter stateFilter = Ok l ->
  sublist (newEdges (synthesize l)) (newEdges (synthesize dataset))
  /\ sublist (map node_id (vsiNodes (newNodes (synthesize l))))
             (map node_id (vsiNodes (newNodes (synthesize dataset))))
  /\ forall n, n ∈ peerNodes (newNodes (synthesize l)) ->
       exists m, m ∈ peerNodes (newNodes (synthesize dataset))
                 /\ node_id m = node_id n /\ node_ip m = node_ip n.
Proof.
  intros H. apply filteredVsis_sublist in H. split; [|split].
  - rewrite !synthesize_edges. now apply allEdges_sublist.
  - rewrite !synthesize_vsiNodes, !node_ids_vsi.
    change (map vsiNodeId ?x) with (vsiNodeId <$> x). now apply fmap_sublist.
  - intros n Hn. rewrite synthesize_peerNodes in *.
    pose proof (fresh_shape _ _ _ _ Hn) as [_ Hid].
    assert (Hk : node_ip n ∈ map node_ip (freshPeerNodes 100 ∅ (allLinks dataset))).
    { apply fresh_keys. split; [apply not_elem_of_empty|].
      assert (Hk' : node_ip n ∈ map node_ip (freshPeerNodes 100 ∅ (allLinks l)))
        by (apply list_elem_of_fmap; eauto).
      apply fresh_keys in Hk' as [_ Hk'].
      eapply elem_of_sublist; [exact Hk'|].
      change (map peerAddress ?x) with (peerAddress <$> x).
      apply fmap_sublist. now apply allLinks_sublist. }
    apply list_elem_of_fmap in Hk as (m & Hip & Hm).
    exists m. split; [assumption|]. split; [|congruence].
    apply fresh_shape in Hm as [_ ->]. congruence.
Qed.

Lemma filtered_graph_within_full_witness :
  sublist (newEdges (synthesize [mkVsi 2 (Some "VSI-B") (Some "down")
             (Some [mkPeer 11 (Some "10.0.0.1") None (Some "down") None])]))
          (newEdges (synthesize exampleRecords)).
Proof.
  apply (filtered_graph_within_full exampleRecords _ "b" "DOWN"). reflexivity.
Defined.

(** ** Further properties of the filter *)

Section FilterMore.

Local Arguments String.append !_ _ /.

Lemma filter_TypeError {A : Type} (cb : A -> result bool) (xs : list A) :
  Js.filter cb xs = TypeError <-> exists x, x ∈ xs /\ cb x = TypeError.
Proof.
  induction xs as [|x xs IH]; simpl.
  - split; [discriminate|]. intros (x & Hx & _). now apply elem_of_nil in Hx.
  - destruct (cb x) as [b|] eqn:Hx; simpl.
    + destruct (Js.filter cb xs) as [r|]; simpl.
      * split; [discriminate|]. intros (y & Hy & Ey).
        apply elem_of_cons in Hy as [->|Hy]; [congruence|].
        assert (Ok r = TypeError) as E by (apply IH; eauto).
        discriminate E.
      * split; [|reflexivity]. intros _.
        destruct (proj1 IH eq_refl) as (y & Hy & Ey).
        exists y. split; [now apply list_elem_of_further | assumption].
    + split; [|reflexivity]. intros _. exists x.
      split; [apply list_elem_of_here | assumption].
Qed.

Lemma filter_ext {A : Type} (cb cb' : A -> result bool) (xs : list A) :
  (forall x, x ∈ xs -> cb x = cb' x) -> Js.filter cb xs = Js.filter cb' xs.
Proof.
  induction xs as [|x xs IH]; intros H; simpl; [reflexivity|].
  rewrite (H x) by apply list_elem_of_here.
  rewrite IH; [reflexivity|].
  intros y Hy. apply H. now apply list_elem_of_further.
Qed.

Lemma truthy_lower (s : string) : truthy (toLowerCase s) = truthy s.
Proof. now destruct s. Qed.

Lemma nameMatch_TypeError (fn : string) (vsi : Vsi) :
  nameMatch fn vsi = TypeError <-> fn <> "" /\ vsi_name vsi = None.
Proof.
  unfold nameMatch. rewrite <- truthy_true.
  destruct (truthy fn), (vsi_name vsi); simpl; split;
    try discriminate; try tauto; intros [? ?]; discriminate.
Qed.

Lemma stateMatch_TypeError (fs : string) (vsi : Vsi) :
  stateMatch fs vsi = TypeError <-> fs <> "" /\ vsi_state vsi = None.
Proof.
  unfold stateMatch. rewrite <- truthy_true.
  destruct (truthy fs), (vsi_state vsi); simpl; split;
    try discriminate; try tauto; intros [? ?]; discriminate.
Qed.

Lemma filterCallback_TypeError (fn fs : string) (vsi : Vsi) :
  filterCallback fn fs vsi = TypeError
  <-> nameMatch fn vsi = TypeError \/ stateMatch fs vsi = TypeError.
Proof.
  unfold filterCallback, mbind, result_bind.
  destruct (nameMatch fn vsi) as [a|], (stateMatch fs vsi) as [b|]; simpl;
    split; try tauto; try discriminate; intros [?|?]; discriminate.
Qed.

Lemma filterCallback_Ok (fn fs : string) (vsi : Vsi) (keep : bool) :
  filterCallback fn fs vsi = Ok keep ->
  exists a b, nameMatch fn vsi = Ok a /\ stateMatch fs vsi = Ok b
              /\ keep = a && b.
Proof.
  unfold filterCallback, mbind, result_bind.
  destruct (nameMatch fn vsi) as [a|], (stateMatch fs vsi) as [b|]; simpl;
    try discriminate.
  intros [= <-]. eauto.
Qed.


Lemma list_filter_filter {A : Type} (p q : A -> bool) (l : list A) :
  List.filter q (List.filter p l) = List.filter (fun x => p x && q x) l.
Proof.
  induction l as [|x l IH]; simpl; [reflexivity|].
  destruct (p x); simpl; [destruct (q x)|]; now rewrite IH.
Qed.


End FilterMore.

(** X9. The filter throws exactly when some record of the dataset lacks
    its name while the name filter is non-empty, or lacks its state while
    the state filter is non-empty; otherwise it returns a list. *)
Theorem filter_raises_exactly_on_missing_field (dataset : list Vsi)
    (nameFilter stateFilter : string) :
  filteredVsis dataset nameFilter stateFilter = TypeError
  <-> exists vsi, vsi ∈ dataset
        /\ ((nameFilter <> "" /\ vsi_name vsi = None)
            \/ (stateFilter <> "" /\ vsi_state vsi = None)).
Proof.
  unfold filteredVsis. rewrite filter_TypeError.
  split; intros (v & Hv & H); exists v; (split; [assumption|]).
  - apply filterCallback_TypeError in H.
    now rewrite nameMatch_TypeError, stateMatch_TypeError in H.
  - apply filterCallback_TypeError.
    now rewrite nameMatch_TypeError, stateMatch_TypeError.
Qed.

Lemma filter_raises_exactly_on_missing_field_witness :
  filteredVsis [nameRecord (Some "a"); nameRecord None] "a" "" = TypeError.
Proof.
  apply (filter_raises_exactly_on_missing_field
           [nameRecord (Some "a"); nameRecord None] "a" "").
  exists (nameRecord None). split.
  - apply list_elem_of_further, list_elem_of_here.
  - left. split; [discriminate | reflexivity].
Defined.

(** X10. Only the lower-cased filter texts matter: two pairs of filter
    values that agree after lower-casing give the same outcome on every
    dataset, so "CORE" and "core" select the same records. *)
Theorem filter_text_case_irrelevant (dataset : list Vsi)
    (nameFilter nameFilter' stateFilter stateFilter' : string) :
  toLowerCase nameFilter = toLowerCase nameFilter' ->
  toLowerCase stateFilter = toLowerCase stateFilter' ->
  filteredVsis dataset nameFilter stateFilter
  = filteredVsis dataset nameFilter' stateFilter'.
Proof.
  intros Hn Hs. unfold filteredVsis. apply filter_ext. intros v _.
  unfold filterCallback, nameMatch, stateMatch.
  rewrite <- (truthy_lower nameFilter), <- (truthy_lower stateFilter), Hn, Hs.
  now rewrite !truthy_lower.
Qed.

Lemma filter_text_case_irrelevant_witness :
  filteredVsis exampleRecords "VSI-a" "Up"
  = filteredVsis exampleRecords "vsi-A" "UP".
Proof.
  apply filter_text_case_irrelevant; reflexivity.
Defined.

(** X11. Filtering is idempotent: filtering a returned result again with
    the same filter values returns it unchanged. *)
Theorem filter_idempotent (dataset l : list Vsi)
    (nameFilter stateFilter : string) :
  filteredVsis dataset nameFilter stateFilter = Ok l ->
  filteredVsis l nameFilter stateFilter = Ok l.
Proof.
  intros H. apply filter_Ok_inv in H as (p & Hp & ->). unfold filteredVsis.
  rewrite (filter_total _ p).
  - rewrite list_filter_filter. f_equal. apply List.filter_ext.
    intros x. now destruct (p x).
  - intros x Hx. apply List.filter_In in Hx as [Hx _]. now apply Hp.
Qed.

Lemma filter_idempotent_witness :
  filteredVsis (List.tl exampleRecords) "b" "down" = Ok (List.tl exampleRecords).
Proof.
  apply (filter_idempotent exampleRecords). reflexivity.
Defined.



(** X13. The two filters compose: when the combined filter returns, the
    same list is obtained by filtering on the name alone and then on the
    state alone, and also in the opposite order. *)
Theorem combined_filter_is_sequential (dataset l : list Vsi)
    (nameFilter stateFilter : string) :
  filteredVsis dataset nameFilter stateFilter = Ok l ->
  (exists byName, filteredVsis dataset nameFilter "" = Ok byName
                  /\ filteredVsis byName "" stateFilter = Ok l)
  /\ (exists byState, filteredVsis dataset "" stateFilter = Ok byState
                      /\ filteredVsis byState nameFilter "" = Ok l).
Proof.
  intros H. apply filter_Ok_inv in H as (p & Hp & ->).
  set (pa := fun v => match nameMatch nameFilter v with
                      | Ok a => a | TypeError => false end).
  set (pb := fun v => match stateMatch stateFilter v with
                      | Ok b => b | TypeError => false end).
  assert (Hab : forall v, In v dataset ->
            nameMatch nameFilter v = Ok (pa v)
            /\ stateMatch stateFilter v = Ok (pb v)
            /\ p v = pa v && pb v).
  { intros v Hv. destruct (filterCallback_Ok _ _ _ _ (Hp v Hv))
      as (a & b & Ha & Hb & E).
    unfold pa, pb. rewrite Ha, Hb. auto. }
  assert (Hname : forall v, In v dataset ->
            filterCallback nameFilter "" v = Ok (pa v)).
  { intros v Hv. destruct (Hab v Hv) as (Ha & _ & _).
    unfold filterCallback, mbind, result_bind. rewrite Ha. simpl.
    now rewrite andb_true_r. }
  assert (Hstate : forall v, In v dataset ->
            filterCallback "" stateFilter v = Ok (pb v)).
  { intros v Hv. destruct (Hab v Hv) as (_ & Hb & _).
    unfold filterCallback, mbind, result_bind. simpl. now rewrite Hb. }
  unfold filteredVsis. split.
  - exists (List.filter pa dataset). split; [now apply filter_total|].
    rewrite (filter_total _ pb).
    + rewrite list_filter_filter. f_equal. apply List.filter_ext_in.
      intros v Hv. now destruct (Hab v Hv) as (_ & _ & ->).
    + intros v Hv. apply List.filter_In in Hv as [Hv _]. now apply Hstate.
  - exists (List.filter pb dataset). split; [now apply filter_total|].
    rewrite (filter_total _ pa).
    + rewrite list_filter_filter. f_equal. apply List.filter_ext_in.
      intros v Hv. destruct (Hab v Hv) as (_ & _ & ->). apply andb_comm.
    + intros v Hv. apply List.filter_In in Hv as [Hv _]. now apply Hname.
Qed.

Lemma combined_filter_is_sequential_witness :
  exists byName, filteredVsis exampleRecords "vsi" "" = Ok byName
                 /\ filteredVsis byName "" "up" = Ok [List.hd (nameRecord None) exampleRecords].
Proof.
  apply (combined_filter_is_sequential exampleRecords _ "vsi" "up"). reflexivity.
Defined.

(** ** The record node's state badge *)

Section BadgeText.

Lemma lower_upper_ascii (c : ascii) : lower_ascii (upper_ascii c) = lower_ascii c.
Proof. destruct c as [[] [] [] [] [] [] [] []]; reflexivity. Qed.

Lemma upper_ascii_star (c : ascii) :
  Ascii.eqb (upper_ascii c) "*" = Ascii.eqb c "*".
Proof. destruct c as [[] [] [] [] [] [] [] []]; reflexivity. Qed.

Lemma lower_ascii_star (c : ascii) :
  Ascii.eqb (lower_ascii c) "*" = Ascii.eqb c "*".
Proof. destruct c as [[] [] [] [] [] [] [] []]; reflexivity. Qed.

Lemma toLowerCase_toUpperCase (s : string) :
  toLowerCase (toUpperCase s) = toLowerCase s.
Proof.
  induction s as [|c s IH]; simpl; [reflexivity|].
  now rewrite lower_upper_ascii, IH.
Qed.

Lemma replace_first_toUpperCase (s : string) :
  replace_first "*" (toUpperCase s) = toUpperCase (replace_first "*" s).
Proof.
  induction s as [|c s IH]; simpl; [reflexivity|].
  rewrite upper_ascii_star. destruct (Ascii.eqb c "*"); [reflexivity|].
  simpl. now rewrite IH.
Qed.

Lemma replace_first_toLowerCase (s : string) :
  replace_first "*" (toLowerCase s) = toLowerCase (replace_first "*" s).
Proof.
  induction s as [|c s IH]; simpl; [reflexivity|].
  rewrite lower_ascii_star. destruct (Ascii.eqb c "*"); [reflexivity|].
  simpl. now rewrite IH.
Qed.

Lemma badge_text_lower (s : string) :
  toLowerCase (replace_first "*" (toUpperCase s))
  = replace_first "*" (toLowerCase s).
Proof.
  rewrite replace_first_toUpperCase, toLowerCase_toUpperCase.
  symmetry. apply replace_first_toLowerCase.
Qed.

End BadgeText.

(** X14. What the state badge of a record node shows is what the state
    filter compares: for a non-empty filter, a record passes exactly when
    it has a badge text and that text equals the filter up to letter
    case. *)
Theorem badge_text_decides_state_filter (stateFilter : string) (vsi : Vsi) :
  stateFilter <> "" ->
  stateMatch stateFilter vsi = Ok true
  <-> exists label, stateBadgeText (vsi_state vsi) = Some label
                    /\ toLowerCase label = toLowerCase stateFilter.
Proof.
  intros Hf. destruct (vsi_state vsi) as [s|] eqn:Hs; simpl.
  - rewrite (stateMatch_present _ s _ Hf Hs), Ok_inj, String.eqb_eq.
    rewrite <- badge_text_lower. split; [eauto|].
    now intros (label & [= <-] & H).
  - split.
    + intros H. assert (stateMatch stateFilter vsi = TypeError) as E
        by (apply stateMatch_TypeError; auto).
      congruence.
    + now intros (label & [=] & _).
Qed.

Lemma badge_text_decides_state_filter_witness :
  stateMatch "Up" (stateRecord (Some "up*")) = Ok true.
Proof.
  apply (badge_text_decides_state_filter "Up" (stateRecord (Some "up*")));
    [discriminate|].
  exists "UP". split; reflexivity.
Defined.

(** ** The status badge against the filter and the edges *)

Lemma getStatusBadgeStyle_present (s : string) :
  s <> "" ->
  getStatusBadgeStyle (Some s)
  = let '(bg, fg, bc) := vsiSwitch (replace_first "*" (toLowerCase s)) in
    {| display := "inline-block"; padding := "2px 6px"; fontSize := "0.8em";
       fontWeight := "bold"; lineHeight := "1"; textAlign := "center";
       whiteSpace := "nowrap"; verticalAlign := "baseline";
       borderRadius := ".25rem";
       backgroundColor := bg; color := fg; border := "1px solid " +:+ bc |}.
Proof.
  intros Hs. unfold getStatusBadgeStyle, statusOrUnknown.
  apply truthy_true in Hs. now rewrite Hs.
Qed.

Lemma stateMatch_true_inv (fs : string) (vsi : Vsi) :
  fs <> "" -> stateMatch fs vsi = Ok true ->
  exists s, vsi_state vsi = Some s /\ s <> ""
            /\ replace_first "*" (toLowerCase s) = toLowerCase fs.
Proof.
  intros Hf H. destruct (vsi_state vsi) as [s|] eqn:Hs.
  - rewrite (stateMatch_present _ s _ Hf Hs) in H.
    apply (proj1 (Ok_inj _ _)) in H. apply String.eqb_eq in H.
    exists s. split; [reflexivity|]. split; [|assumption].
    intros ->. simpl in H. destruct fs; [congruence | discriminate].
  - assert (stateMatch fs vsi = TypeError) as E
      by (apply stateMatch_TypeError; auto).
    congruence.
Qed.

(** X15. Records selected by one state filter are badged alike: any two
    records that pass the same non-empty state filter get the same badge
    style from [getStatusBadgeStyle], green for the filter "up" and red
    for "down", whatever the letter case and marker of their states. *)
Theorem same_state_filter_same_badge (stateFilter : string) (v w : Vsi) :
  stateFilter <> "" ->
  stateMatch stateFilter v = Ok true ->
  stateMatch stateFilter w = Ok true ->
  getStatusBadgeStyle (vsi_state v) = getStatusBadgeStyle (vsi_state w)
  /\ (toLowerCase stateFilter = "up" ->
      backgroundColor (getStatusBadgeStyle (vsi_state v)) = "#d4edda")
  /\ (toLowerCase stateFilter = "down" ->
      backgroundColor (getStatusBadgeStyle (vsi_state v)) = "#f8d7da").
Proof.
  intros Hf Hv Hw.
  destruct (stateMatch_true_inv _ _ Hf Hv) as (s & -> & Hs & Es).
  destruct (stateMatch_true_inv _ _ Hf Hw) as (t & -> & Ht & Et).
  rewrite !getStatusBadgeStyle_present, Es, Et by assumption.
  split; [reflexivity|]. split; intros ->; reflexivity.
Qed.

Lemma same_state_filter_same_badge_witness :
  getStatusBadgeStyle (Some "up*") = getStatusBadgeStyle (Some "UP")
  /\ backgroundColor (getStatusBadgeStyle (Some "up*")) = "#d4edda".
Proof.
  destruct (same_state_filter_same_badge "Up" (stateRecord (Some "up*"))
              (stateRecord (Some "UP"))) as (H1 & H2 & _);
    [discriminate | reflexivity | reflexivity |].
  split; [exact H1 | apply H2; reflexivity].
Defined.

(** X16. A pseudowire drawn as up on the map is badged green on the
    device page: whenever the edge of a link is animated, the badge style
    of the link's pseudowire state has the green background. *)
Theorem up_edge_has_green_badge (vsi : Vsi) (peer : VsiPeerInfo) :
  animated (edgeOf vsi peer) = true ->
  stroke (edgeOf vsi peer) = "#2ecc71"
  /\ backgroundColor (getStatusBadgeStyle (pwState peer)) = "#d4edda".
Proof.
  simpl. intros Hup. rewrite Hup. split; [reflexivity|].
  apply isPeerUp_spec in Hup as (s & -> & Hs).
  assert (Hne : s <> "") by (intros ->; discriminate).
  rewrite (getStatusBadgeStyle_present s Hne), Hs. reflexivity.
Qed.

Lemma up_edge_has_green_badge_witness :
  backgroundColor (getStatusBadgeStyle (pwState blankLink)) = "#d4edda".
Proof.
  apply (up_edge_has_green_badge blankLinkRecord blankLink). reflexivity.
Defined.

(** ** The pattern matcher and the form's pattern *)

Section RegexFacts.

Local Arguments String.append !_ _ /.

Lemma matches_Seq_iff (r1 r2 : regex) (s : string) :
  matches (Seq r1 r2) s
  <-> exists s1 s2, s = s1 +:+ s2 /\ matches r1 s1 /\ matches r2 s2.
Proof.
  split.
  - intros H. inversion H; subst. eauto.
  - intros (s1 & s2 & -> & H1 & H2). now constructor.
Qed.

Lemma matches_Alt_iff (r1 r2 : regex) (s : string) :
  matches (Alt r1 r2) s <-> matches r1 s \/ matches r2 s.
Proof.
  split.
  - intros H. inversion H; subst; auto.
  - intros [H|H]; [now apply matches_Alt_l | now apply matches_Alt_r].
Qed.

Lemma matches_Class_iff (p : ascii -> bool) (s : string) :
  matches (Class p) s <-> exists c, s = String c "" /\ p c = true.
Proof.
  split.
  - intros H. inversion H; subst. eauto.
  - intros (c & -> & H). now constructor.
Qed.

Lemma matches_Eps_iff (s : string) : matches Eps s <-> s = "".
Proof.
  split.
  - intros H. now inversion H.
  - intros ->. constructor.
Qed.

Lemma matches_Void (s : string) : ~ matches Void s.
Proof. intros H. inversion H. Qed.

Lemma append_eq_nil (a b : string) : a +:+ b = "" -> a = "" /\ b = "".
Proof. destruct a; simpl; [auto | discriminate]. Qed.

Lemma nullable_spec (r : regex) : nullable r = true <-> matches r "".
Proof.
  induction r as [| |p|r1 IH1 r2 IH2|r1 IH1 r2 IH2]; simpl.
  - split; [discriminate | intros H; now apply matches_Void in H].
  - split; [constructor | reflexivity].
  - split; [discriminate|]. rewrite matches_Class_iff.
    intros (c & E & _). discriminate.
  - rewrite andb_true_iff, IH1, IH2, matches_Seq_iff. split.
    + intros [H1 H2]. now exists "", "".
    + intros (s1 & s2 & E & H1 & H2). symmetry in E.
      apply append_eq_nil in E as [-> ->]. auto.
  - now rewrite orb_true_iff, IH1, IH2, matches_Alt_iff.
Qed.

Lemma deriv_spec (c : ascii) (r : regex) (s : string) :
  matches (deriv c r) s <-> matches r (String c s).
Proof.
  revert s.
  induction r as [| |p|r1 IH1 r2 IH2|r1 IH1 r2 IH2]; intros s; simpl.
  - split; intros H; now apply matches_Void in H.
  - split; intros H; [now apply matches_Void in H | inversion H].
  - rewrite matches_Class_iff. destruct (p c) eqn:Hp.
    + rewrite matches_Eps_iff. split.
      * intros ->. eauto.
      * now intros (d & [= _ ->] & _).
    + split; [intros H; now apply matches_Void in H|].
      intros (d & [= <- _] & H). congruence.
  - rewrite matches_Alt_iff, !matches_Seq_iff. split.
    + intros [(s1 & s2 & -> & H1 & H2) | H].
      * exists (String c s1), s2. rewrite <- IH1. auto.
      * destruct (nullable r1) eqn:Hn; [|now apply matches_Void in H].
        exists "", (String c s). rewrite <- IH2, <- nullable_spec. auto.
    + intros (s1 & s2 & E & H1 & H2). destruct s1 as [|d s1]; simpl in E.
      * right. subst s2. apply nullable_spec in H1. rewrite H1.
        now apply IH2.
      * left. injection E as <- ->. exists s1, s2. rewrite IH1. auto.
  - now rewrite !matches_Alt_iff, IH1, IH2.
Qed.

(** The matcher decides membership. *)
Lemma regexTest_spec (r : regex) (s : string) :
  regexTest r s = true <-> matches r s.
Proof.
  revert r. induction s as [|c s IH]; intros r; simpl.
  - apply nullable_spec.
  - now rewrite IH, deriv_spec.
Qed.

Lemma matches_dot (s : string) : matches (Class isDot) s <-> s = ".".
Proof.
  rewrite matches_Class_iff. split.
  - intros (c & -> & H). unfold isDot in H. apply Ascii.eqb_eq in H. now subst.
  - intros ->. now exists "."%char.
Qed.

Lemma matches_oneToThree_digits (a : string) :
  matches (oneToThree (Class isDigit)) a <-> digitGroup a.
Proof.
  unfold oneToThree, digitGroup. split.
  - intros H. apply matches_Seq_iff in H as (s1 & s2 & -> & H1 & H2).
    apply matches_Class_iff in H1 as (c1 & -> & Hc1).
    apply matches_Alt_iff in H2 as [H2|H2].
    { apply matches_Eps_iff in H2 as ->. simpl. split; [lia|].
      intros c [<-|[]]. assumption. }
    apply matches_Seq_iff in H2 as (s3 & s4 & -> & H3 & H4).
    apply matches_Class_iff in H3 as (c2 & -> & Hc2).
    apply matches_Alt_iff in H4 as [H4|H4].
    { apply matches_Eps_iff in H4 as ->. simpl. split; [lia|].
      intros c [<-|[<-|[]]]; assumption. }
    apply matches_Class_iff in H4 as (c3 & -> & Hc3).
    simpl. split; [lia|]. intros c [<-|[<-|[<-|[]]]]; assumption.
  - intros [Hlen Hd].
    destruct a as [|c1 a]; simpl in Hlen; [lia|].
    apply (matches_Seq (Class isDigit) _ (String c1 "") a).
    { constructor. apply Hd. simpl. auto. }
    destruct a as [|c2 a]; [apply matches_Alt_l; constructor|].
    apply matches_Alt_r.
    apply (matches_Seq (Class isDigit) _ (String c2 "") a).
    { constructor. apply Hd. simpl. auto. }
    destruct a as [|c3 a]; [apply matches_Alt_l; constructor|].
    apply matches_Alt_r.
    destruct a as [|c4 a]; [|simpl in Hlen; lia].
    constructor. apply Hd. simpl. auto.
Qed.

Lemma matches_ipPattern (ip : string) : matches ipPattern ip <-> dottedQuad ip.
Proof.
  unfold ipPattern, dottedQuad. split.
  - intros H.
    apply matches_Seq_iff in H as (a & t1 & -> & Ha & H).
    apply matches_Seq_iff in H as (p1 & t2 & -> & Hp1 & H).
    apply matches_Seq_iff in H as (b & t3 & -> & Hb & H).
    apply matches_Seq_iff in H as (p2 & t4 & -> & Hp2 & H).
    apply matches_Seq_iff in H as (c & t5 & -> & Hc & H).
    apply matches_Seq_iff in H as (p3 & d & -> & Hp3 & Hd).
    apply matches_dot in Hp1 as ->. apply matches_dot in Hp2 as ->.
    apply matches_dot in Hp3 as ->.
    apply matches_oneToThree_digits in Ha, Hb, Hc, Hd.
    exists a, b, c, d. auto.
  - intros (a & b & c & d & Ha & Hb & Hc & Hd & ->).
    apply matches_oneToThree_digits in Ha, Hb, Hc, Hd.
    repeat (apply matches_Seq; [assumption || (apply matches_dot; reflexivity)|]).
    assumption.
Qed.

Lemma string_length_app (a b : string) :
  String.length (a +:+ b) = (String.length a + String.length b)%nat.
Proof. induction a as [|c a IH]; simpl; [reflexivity | now rewrite IH]. Qed.

Lemma isDigitGroup_spec (a : string) : isDigitGroup a = true -> digitGroup a.
Proof.
  unfold isDigitGroup, digitGroup. rewrite !andb_true_iff.
  intros [[H1 H2] H3]. apply Nat.leb_le in H1, H2. split; [lia|].
  clear H1 H2. induction a as [|d a IH]; simpl in *; [tauto|].
  apply andb_true_iff in H3 as [Hd Ha]. intros c [<-|Hc]; auto.
Qed.

(** Every number below one thousand prints as a digit group. *)
Lemma small_numbers_are_groups :
  forallb (fun n : nat => isDigitGroup (pretty n)) (seq 0 1000) = true.
Proof. vm_compute. reflexivity. Qed.

Lemma digitGroup_pretty (n : nat) : (n < 1000)%nat -> digitGroup (pretty n).
Proof.
  intros Hn. apply isDigitGroup_spec.
  pose proof small_numbers_are_groups as H.
  rewrite forallb_forall in H. apply H. apply in_seq. lia.
Qed.

End RegexFacts.

Lemma handleSubmit_Submit_iff (name ip : string) :
  handleSubmit name ip = Submit name ip <-> name <> "" /\ dottedQuad ip.
Proof.
  unfold handleSubmit. rewrite <- matches_ipPattern, <- regexTest_spec.
  rewrite <- truthy_true.
  destruct (truthy name) eqn:Hn; simpl.
  - destruct (truthy ip) eqn:Hi; simpl.
    + destruct (regexTest ipPattern ip); simpl; split;
        try discriminate; try tauto; intros [_ ?]; discriminate.
    + split; [discriminate|]. intros [_ H].
      destruct ip; [discriminate H | discriminate Hi].
  - split; [discriminate|]. intros [? _]. discriminate.
Qed.

(** X17. The device form submits exactly the well-formed input: the call
    [onSubmit] is reached if and only if the name is non-empty and the
    address is four groups of one to three decimal digits separated by
    dots; name and address are then passed on unchanged, and in every
    other case the form alerts instead. *)
Theorem form_submits_iff_well_formed (name ip : string) :
  (handleSubmit name ip = Submit name ip <-> name <> "" /\ dottedQuad ip)
  /\ (forall n i, handleSubmit name ip = Submit n i -> n = name /\ i = ip)
  /\ (~ (name <> "" /\ dottedQuad ip) ->
      exists message, handleSubmit name ip = Alert message).
Proof.
  split; [apply handleSubmit_Submit_iff|]. split.
  - intros n i. unfold handleSubmit.
    destruct (negb (truthy name) || negb (truthy ip)); [discriminate|].
    destruct (negb (regexTest ipPattern ip)); [discriminate|].
    now intros [= <- <-].
  - intros Hbad. pose proof (handleSubmit_Submit_iff name ip) as Hiff.
    unfold handleSubmit in *.
    destruct (negb (truthy name) || negb (truthy ip)); [eauto|].
    destruct (negb (regexTest ipPattern ip)); [eauto|].
    exfalso. apply Hbad. now apply Hiff.
Qed.

Lemma form_submits_iff_well_formed_witness :
  handleSubmit "core-1" "192.168.1.1" = Submit "core-1" "192.168.1.1".
Proof.
  apply (form_submits_iff_well_formed "core-1" "192.168.1.1").
  split; [discriminate|].
  exists "192", "168", "1", "1".
  split; [now apply isDigitGroup_spec|].
  split; [now apply isDigitGroup_spec|].
  split; [now apply isDigitGroup_spec|].
  split; [now apply isDigitGroup_spec | reflexivity].
Defined.

(** X18. The form checks the shape of the address only: with a non-empty
    name, any four numbers below one thousand written in decimal are
    submitted, also when an octet exceeds 255; and every submitted address
    is between 7 and 15 characters long. *)
Theorem octets_not_range_checked (name : string) :
  (forall a b c d : nat,
     name <> "" ->
     (a < 1000)%nat -> (b < 1000)%nat -> (c < 1000)%nat -> (d < 1000)%nat ->
     let ip := pretty a +:+ "." +:+ pretty b +:+ "." +:+ pretty c
               +:+ "." +:+ pretty d in
     handleSubmit name ip = Submit name ip)
  /\ (forall ip, handleSubmit name ip = Submit name ip ->
        (7 <= String.length ip <= 15)%nat).
Proof.
  split.
  - intros a b c d Hn Ha Hb Hc Hd. cbv zeta.
    apply handleSubmit_Submit_iff. split; [assumption|].
    exists (pretty a), (pretty b), (pretty c), (pretty d).
    repeat split; try (apply digitGroup_pretty; assumption).
  - intros ip H. apply handleSubmit_Submit_iff in H as [_ H].
    destruct H as (a & b & c & d & [Ha _] & [Hb _] & [Hc _] & [Hd _] & ->).
    rewrite !string_length_app. simpl. lia.
Qed.

Lemma octets_not_range_checked_witness :
  handleSubmit "core-1" "999.256.0.300" = Submit "core-1" "999.256.0.300".
Proof.
  destruct (octets_not_range_checked "core-1") as [H _].
  apply (H 999 256 0 300)%nat; [discriminate | lia..].
Defined.
